(** * Tiled convolution driver of the SMV backend (smv_convolution_op.cpp)

    A shallow embedding of [SmvConvolutionOp::run] and
    [SmvConvolutionOp::runNHWC].  Tensors live in a heap of tiles (the
    [SmvTensor*] pointers of the C++ code); the driver is written in a small
    state-and-error monad that threads the heap and a log of the observable
    calls (tiling requests and kernel invocations).  Tensor element values
    are never inspected by the driver, so they are kept abstract as [Z]. *)

From Stdlib Require Import ZArith Lia.
From stdpp Require Import base list gmap.

Local Open Scope Z_scope.

(** ** Data model *)

(** A four-entry shape or coordinate, indexed as [shape[0] .. shape[3]]. *)
Record V4 := mkV4 { d0 : Z; d1 : Z; d2 : Z; d3 : Z }.

(** Data layouts; only [NHWC] matters to this operator. *)
Inductive DataLayout := UnknownLayout | NCHW | NHWC | NC | X.

#[global] Instance DataLayout_eq_dec : EqDecision DataLayout.
Proof. solve_decision. Defined.

Record TensorShape := mkShape {
  dims : V4;          (* getShape()[i] *)
  padding : V4;       (* getPadding(i) *)
  layout : DataLayout (* getLayout() *)
}.

(** A tile or a whole tensor: its shape and its (abstract) elements. *)
Record Tensor := mkTensor { t_shape : TensorShape; t_at : V4 -> Z }.

(** A TiledTensor: the tile-grid shape and the heap addresses of its tiles,
    in linear (row-major) order. *)
Record TiledTensor := mkTiled { tt_shape : TensorShape; tt_tiles : list Z }.

Record TilingConfig := mkTiling {
  tc_inputs : TensorShape; tc_weights : TensorShape; tc_outputs : TensorShape
}.

(** The fields of the convolution operator read by [run]/[runNHWC]. *)
Record ConvOp := mkConvOp {
  op_input : Tensor;      (* getInput(Inputs) *)
  op_kernels : Tensor;    (* getInput(Kernels) *)
  op_output : Tensor;     (* getOutput(Outputs) *)
  weightRows : Z;
  weightCols : Z;
  rowStride : Z;          (* getRowStride() *)
  colStride : Z           (* getColStride() *)
}.

(** The arguments of one call of [smv_conv3d_f32_nhwc_same_padding_vec_fxp],
    together with the tile coordinates the diagnostic line reports. *)
Record KernelCall := mkCall {
  kc_in_coord : V4;       (* inputIdx(N, H, 0, iC) *)
  kc_w_coord : V4;        (* weightIdx(W, 0, 0, wC) *)
  kc_out_coord : V4;      (* outputIdx(N, H, 0, W) *)
  kc_inputs : Z;          (* address of inputTile *)
  kc_weights : Z;         (* address of weightsTile *)
  kc_results : Z;         (* address of outputTile *)
  kc_inputs_dims : V4;
  kc_weights_dims : V4;
  kc_results_dims : V4;
  kc_inputs_pad : Z;
  kc_weights_pad : Z;
  kc_results_pad : Z;
  kc_row_stride : Z;
  kc_col_stride : Z;
  kc_ofmap_start : Z;     (* W *)
  kc_ifmap_start : Z;     (* iC *)
  kc_accumulate : bool    (* iC == wC *)
}.

Inductive Event :=
  | EvTileShapes (cfg : TilingConfig)
  | EvGenerate (src : Tensor) (tileShape : TensorShape) (halos : list Z)
  | EvKernel (k : KernelCall).

Record State := mkState { heap : gmap Z Tensor; log : list Event }.

(** [assert] failure, an index outside a tile grid or an unpopulated slot,
    and the channel loop running out of its (proved sufficient) fuel. *)
Inductive Failure := AssertFailure | IndexFailure | Diverged.

Inductive Result (A : Type) := Ok (a : A) | Err (f : Failure).
Arguments Ok {A} a.
Arguments Err {A} f.

(** ** The state-and-error monad *)

Definition M (A : Type) : Type := State -> State * Result A.

#[global] Instance M_ret : MRet M := fun A a s => (s, Ok a).
#[global] Instance M_bind : MBind M := fun A B f m s =>
  match m s with
  | (s', Ok a) => f a s'
  | (s', Err e) => (s', Err e)
  end.

Definition fail {A} (e : Failure) : M A := fun s => (s, Err e).

Definition assert (b : bool) : M unit :=
  if b then mret () else fail AssertFailure.

Definition emit (e : Event) : M unit :=
  fun s => (mkState (heap s) (log s ++ [e]), Ok ()).

Definition of_option {A} (o : option A) : M A :=
  match o with Some a => mret a | None => fail IndexFailure end.

Definition load (a : Z) : M Tensor := fun s => of_option (heap s !! a) s.

Definition store (a : Z) (t : Tensor) : M unit :=
  fun s => (mkState (<[a := t]> (heap s)) (log s), Ok ()).

Fixpoint iter_ {A} (l : list A) (f : A -> M unit) : M unit :=
  match l with
  | [] => mret ()
  | x :: l' => f x ;; iter_ l' f
  end.

(** [for (int i = 0; i < n; i++) body(i)] *)
Definition for_ (n : Z) (body : Z -> M unit) : M unit := iter_ (seqZ 0 n) body.

(** ** TiledTensor indexing *)

(** Modelled from the spec: [TiledTensor::startIndex()] (not in the
    sources).  Row-major linear index of a tile coordinate; an indexing
    error when a coordinate is outside [[0, extent)] of its axis. *)
Definition tile_index (grid : V4) (i : V4) : option Z :=
  if (0 <=? d0 i) && (d0 i <? d0 grid) && (0 <=? d1 i) && (d1 i <? d1 grid) &&
     (0 <=? d2 i) && (d2 i <? d2 grid) && (0 <=? d3 i) && (d3 i <? d3 grid)
  then Some (((d0 i * d1 grid + d1 i) * d2 grid + d2 i) * d3 grid + d3 i)
  else None.

Definition index_of (tiled : TiledTensor) (i : V4) : M Z :=
  of_option (tile_index (dims (tt_shape tiled)) i).

(** Modelled from the spec: [TiledTensor::operator[]] (not in the sources);
    fails on a slot that was never populated. *)
Definition tile_addr (tiled : TiledTensor) (idx : Z) : M Z :=
  of_option (tt_tiles tiled !! Z.to_nat idx).

(** ** The channel-tile reconciliation loop *)

(** The cursor update at the end of the loop body (lines 62-69). *)
Definition chan_step (inputChanTiles weightChanTiles iC wC : Z) : Z * Z :=
  if inputChanTiles =? weightChanTiles then (iC + 1, wC + 1)
  else if inputChanTiles =? 1 then (iC, wC + 1)
  else (iC + 1, wC).

(** [while (iC < inputChanTiles && wC < weightChanTiles) { body; step }]:
    the (iC, wC) pairs on which the body runs, in order.  [None] only when
    the fuel runs out, which [chan_sched] never lets happen. *)
Fixpoint chan_loop (fuel : nat) (inputChanTiles weightChanTiles iC wC : Z)
  : option (list (Z * Z)) :=
  if (iC <? inputChanTiles) && (wC <? weightChanTiles) then
    match fuel with
    | O => None
    | S fuel' =>
        let '(iC', wC') := chan_step inputChanTiles weightChanTiles iC wC in
        (fun rest => (iC, wC) :: rest) <$>
          chan_loop fuel' inputChanTiles weightChanTiles iC' wC'
    end
  else Some [].

(** [int iC = 0, wC = 0;] then the loop. *)
Definition chan_sched (inputChanTiles weightChanTiles : Z) : option (list (Z * Z)) :=
  chan_loop (Z.to_nat inputChanTiles + Z.to_nat weightChanTiles)
    inputChanTiles weightChanTiles 0 0.

(** ** The driver *)

Section Driver.

(** Modelled from the spec: the fixed-function kernel
    [smv_conv3d_f32_nhwc_same_padding_vec_fxp] (not in the sources).  It
    receives the call's arguments and the three tiles and writes its result
    into the output tile buffer only; here it returns the new contents of
    that buffer. *)
Variable smv_conv3d_f32_nhwc_same_padding_vec_fxp :
  KernelCall -> Tensor -> Tensor -> Tensor -> (V4 -> Z).

(** The loop body, lines 31-60. *)
Definition conv_body (op : ConvOp) (inputs weights outputs : TiledTensor)
    (N H W iC wC : Z) : M unit :=
  inputIdx ← index_of inputs (mkV4 N H 0 iC);
  weightIdx ← index_of weights (mkV4 W 0 0 wC);
  outputIdx ← index_of outputs (mkV4 N H 0 W);
  inAddr ← tile_addr inputs inputIdx;
  wAddr ← tile_addr weights weightIdx;
  outAddr ← tile_addr outputs outputIdx;
  inputTile ← load inAddr;
  weightsTile ← load wAddr;
  outputTile ← load outAddr;
  let inputShape := t_shape inputTile in
  let weightsShape := t_shape weightsTile in
  let outputShape := t_shape outputTile in
  let call := {|
    kc_in_coord := mkV4 N H 0 iC;
    kc_w_coord := mkV4 W 0 0 wC;
    kc_out_coord := mkV4 N H 0 W;
    kc_inputs := inAddr; kc_weights := wAddr; kc_results := outAddr;
    kc_inputs_dims := dims inputShape;
    kc_weights_dims := dims weightsShape;
    kc_results_dims := dims outputShape;
    kc_inputs_pad := d3 (padding inputShape);
    kc_weights_pad := d3 (padding weightsShape);
    kc_results_pad := d3 (padding outputShape);
    kc_row_stride := rowStride op;
    kc_col_stride := colStride op;
    kc_ofmap_start := W;
    kc_ifmap_start := iC;
    kc_accumulate := iC =? wC |} in
  emit (EvKernel call);;
  store outAddr (mkTensor outputShape
    (smv_conv3d_f32_nhwc_same_padding_vec_fxp call inputTile weightsTile outputTile)).

(** [SmvConvolutionOp::runNHWC], lines 18-74. *)
Definition runNHWC (op : ConvOp) (inputs weights outputs : TiledTensor) : M unit :=
  for_ (d0 (dims (tt_shape inputs))) (fun N =>
  for_ (d1 (dims (tt_shape inputs))) (fun H =>
  for_ (d0 (dims (tt_shape weights))) (fun W =>
    let inputChanTiles := d3 (dims (tt_shape inputs)) in
    let weightChanTiles := d3 (dims (tt_shape weights)) in
    match chan_sched inputChanTiles weightChanTiles with
    | Some sched =>
        iter_ sched (fun p => conv_body op inputs weights outputs N H W p.1 p.2)
    | None => fail Diverged
    end))).

End Driver.

Section Run.

Variable smv_conv3d_f32_nhwc_same_padding_vec_fxp :
  KernelCall -> Tensor -> Tensor -> Tensor -> (V4 -> Z).

(** [TilingOptimizer::computeBasicTileShapes] and
    [TilingOptimizer::generateTiledTensor] are not in the sources; [run] is
    stated for any pure tile-shape function and any tile generator that
    allocates its tiles in the heap and returns normally. *)
Variable computeBasicTileShapes : ConvOp -> TilingConfig.
Variable generateTiledTensor :
  Tensor -> TensorShape -> list Z -> gmap Z Tensor -> gmap Z Tensor * TiledTensor.

Definition compute_tiles (op : ConvOp) : M TilingConfig :=
  let cfg := computeBasicTileShapes op in
  emit (EvTileShapes cfg);; mret cfg.

Definition generate (t : Tensor) (tileShape : TensorShape) (halos : list Z)
  : M TiledTensor :=
  fun s =>
    let '(h', tiled) := generateTiledTensor t tileShape halos (heap s) in
    (mkState h' (log s ++ [EvGenerate t tileShape halos]), Ok tiled).

Definition layout_is_NHWC (t : Tensor) : bool :=
  bool_decide (layout (t_shape t) = NHWC).

(** [SmvConvolutionOp::run], lines 76-99 ([dout] omitted). *)
Definition run (op : ConvOp) : M unit :=
  let input := op_input op in
  let kernels := op_kernels op in
  let output := op_output op in
  assert (layout_is_NHWC input);;
  assert (layout_is_NHWC kernels);;
  assert (layout_is_NHWC output);;
  tileShapes ← compute_tiles op;
  let inputHalos := [0; Z.quot (weightRows op) 2; Z.quot (weightCols op) 2; 0] in
  tiledInputs ← generate input (tc_inputs tileShapes) inputHalos;
  tiledWeights ← generate kernels (tc_weights tileShapes) [0; 0; 0; 0];
  tiledOutputs ← generate output (tc_outputs tileShapes) [0; 0; 0; 0];
  runNHWC smv_conv3d_f32_nhwc_same_padding_vec_fxp op
    tiledInputs tiledWeights tiledOutputs.

End Run.

(** ** Tiling helpers (not in the sources) *)

Module Tiling.

(** Hardware constants of smv_convolution_op.cpp, lines 12-13. *)
Definition kNumPEs : Z := 8.
Definition kNumMaccsPerPE : Z := 32.

Definition v4map2 (f : Z -> Z -> Z) (a b : V4) : V4 :=
  mkV4 (f (d0 a) (d0 b)) (f (d1 a) (d1 b)) (f (d2 a) (d2 b)) (f (d3 a) (d3 b)).

Definition v4map3 (f : Z -> Z -> Z -> Z) (a b c : V4) : V4 :=
  mkV4 (f (d0 a) (d0 b) (d0 c)) (f (d1 a) (d1 b) (d1 c))
       (f (d2 a) (d2 b) (d2 c)) (f (d3 a) (d3 b) (d3 c)).

Definition v4_all (P : Z -> Z -> Prop) (a b : V4) : Prop :=
  P (d0 a) (d0 b) /\ P (d1 a) (d1 b) /\ P (d2 a) (d2 b) /\ P (d3 a) (d3 b).

Definition v4_of_list (l : list Z) : V4 :=
  mkV4 (default 0 (l !! 0%nat)) (default 0 (l !! 1%nat))
       (default 0 (l !! 2%nat)) (default 0 (l !! 3%nat)).

Definition zero4 : V4 := mkV4 0 0 0 0.

(** Modelled from the spec (section 4.3, generateTiledTensor): along one
    axis of extent [E], tile size [t] and halo [h], the number of tiles,
    the core region of tile [g] and its haloed region, clamped to
    [[0, E)]. *)
Definition num_tiles (E t : Z) : Z := (E + t - 1) / t.
Definition core_lo (t g : Z) : Z := g * t.
Definition core_hi (E t g : Z) : Z := Z.min E ((g + 1) * t).
Definition halo_lo (t h g : Z) : Z := Z.max 0 (g * t - h).
Definition halo_hi (E t h g : Z) : Z := Z.min E ((g + 1) * t + h).

(** All coordinates of a grid, in row-major order. *)
Definition grid_coords (grid : V4) : list V4 :=
  flat_map (fun a =>
  flat_map (fun b =>
  flat_map (fun c =>
  map (fun d => mkV4 a b c d) (seqZ 0 (d3 grid))) (seqZ 0 (d2 grid)))
    (seqZ 0 (d1 grid))) (seqZ 0 (d0 grid)).

Definition tile_grid (E ts : V4) : V4 := v4map2 num_tiles E ts.

Definition tile_origin (ts hs g : V4) : V4 := v4map3 halo_lo ts hs g.

Definition tile_extent (E ts hs g : V4) : V4 :=
  mkV4 (halo_hi (d0 E) (d0 ts) (d0 hs) (d0 g) - halo_lo (d0 ts) (d0 hs) (d0 g))
       (halo_hi (d1 E) (d1 ts) (d1 hs) (d1 g) - halo_lo (d1 ts) (d1 hs) (d1 g))
       (halo_hi (d2 E) (d2 ts) (d2 hs) (d2 g) - halo_lo (d2 ts) (d2 hs) (d2 g))
       (halo_hi (d3 E) (d3 ts) (d3 hs) (d3 g) - halo_lo (d3 ts) (d3 hs) (d3 g)).

(** The tile at grid coordinate [g]: a copy of its haloed region. *)
Definition make_tile (src : Tensor) (ts hs g : V4) : Tensor :=
  let E := dims (t_shape src) in
  let o := tile_origin ts hs g in
  mkTensor (mkShape (tile_extent E ts hs g) zero4 (layout (t_shape src)))
           (fun li => t_at src (v4map2 Z.add o li)).

Definition gen_tiles (src : Tensor) (ts hs : V4) : list Tensor :=
  map (make_tile src ts hs) (grid_coords (tile_grid (dims (t_shape src)) ts)).

Definition next_free (h : gmap Z Tensor) : Z :=
  1 + foldr Z.max 0 (map fst (map_to_list h)).

Fixpoint alloc_all (base : Z) (ts : list Tensor) (h : gmap Z Tensor) : gmap Z Tensor :=
  match ts with
  | [] => h
  | t :: ts' => alloc_all (base + 1) ts' (<[base := t]> h)
  end.

(** Modelled from the spec: [TilingOptimizer::generateTiledTensor].  The
    tiles are allocated at fresh heap addresses, in row-major order. *)
Definition generateTiledTensor (src : Tensor) (tileShape : TensorShape)
    (halos : list Z) (h : gmap Z Tensor) : gmap Z Tensor * TiledTensor :=
  let ts := dims tileShape in
  let tiles := gen_tiles src ts (v4_of_list halos) in
  let base := next_free h in
  (alloc_all base tiles h,
   mkTiled (mkShape (tile_grid (dims (t_shape src)) ts) zero4 (layout (t_shape src)))
           (seqZ base (Z.of_nat (length tiles)))).

Definition v4_forall (P : Z -> Prop) (a : V4) : Prop :=
  P (d0 a) /\ P (d1 a) /\ P (d2 a) /\ P (d3 a).

(** [x] lies in the core (the region without halo) of tile [g]. *)
Definition in_core (E ts g x : V4) : Prop :=
  core_lo (d0 ts) (d0 g) <= d0 x < core_hi (d0 E) (d0 ts) (d0 g) /\
  core_lo (d1 ts) (d1 g) <= d1 x < core_hi (d1 E) (d1 ts) (d1 g) /\
  core_lo (d2 ts) (d2 g) <= d2 x < core_hi (d2 E) (d2 ts) (d2 g) /\
  core_lo (d3 ts) (d3 g) <= d3 x < core_hi (d3 E) (d3 ts) (d3 g).

(** Reading the source element at [x] back from a TiledTensor: the tile
    whose core holds [x] is at grid coordinate [x / ts]; [x] is read from
    it at [x] minus the tile's origin (the halo overlap subtracted), when
    that local index is inside the tile. *)
Definition reconstruct (h : gmap Z Tensor) (tiled : TiledTensor) (ts hs : V4)
    (x : V4) : option Z :=
  let g := v4map2 Z.div x ts in
  idx ← tile_index (dims (tt_shape tiled)) g;
  addr ← tt_tiles tiled !! Z.to_nat idx;
  tile ← h !! addr;
  let li := v4map2 Z.sub x (tile_origin ts hs g) in
  if bool_decide (v4_all (fun i e => 0 <= i < e) li (dims (t_shape tile)))
  then Some (t_at tile li) else None.

(** Modelled from the spec (section 4.3, computeBasicTileShapes): filters
    spread over the processing elements, weight channels within one
    element's multiply-accumulate capacity, the input channel tile matching
    the weight channel tile or the whole (smaller) depth, and the output
    channel tile matching the filter tile.  Reads only shapes. *)
Definition computeBasicTileShapes_with (numPEs numMaccsPerPE : Z) (op : ConvOp)
  : TilingConfig :=
  let I := dims (t_shape (op_input op)) in
  let K := dims (t_shape (op_kernels op)) in
  let O := dims (t_shape (op_output op)) in
  let wChans := Z.min (d3 K) numMaccsPerPE in
  let wFilters := Z.min (d0 K) numPEs in
  let iChans := if d3 I <=? wChans then d3 I else wChans in
  {| tc_inputs := mkShape (mkV4 1 (d1 I) (d2 I) iChans) zero4 NHWC;
     tc_weights := mkShape (mkV4 wFilters (d1 K) (d2 K) wChans) zero4 NHWC;
     tc_outputs := mkShape (mkV4 1 (d1 O) (d2 O) wFilters) zero4 NHWC |}.

Definition computeBasicTileShapes (op : ConvOp) : TilingConfig :=
  computeBasicTileShapes_with kNumPEs kNumMaccsPerPE op.

End Tiling.

(** ** Observations on the log *)

Definition kernel_calls (l : list Event) : list KernelCall :=
  omap (fun e => match e with EvKernel k => Some k | _ => None end) l.

(** What the claims about the reconciliation loop observe of one call: the
    input, weight and output tile coordinates and the accumulate flag. *)
Definition call_view (k : KernelCall) : V4 * V4 * V4 * bool :=
  (kc_in_coord k, kc_w_coord k, kc_out_coord k, kc_accumulate k).

(** The calls the loop nest makes for one (N, H, W), given the schedule. *)
Definition views_of (N H W : Z) (sched : list (Z * Z)) : list (V4 * V4 * V4 * bool) :=
  map (fun p => (mkV4 N H 0 p.1, mkV4 W 0 0 p.2, mkV4 N H 0 W, p.1 =? p.2)) sched.

Definition nest_views (nN nH nW : Z) (sched : list (Z * Z)) : list (V4 * V4 * V4 * bool) :=
  concat (map (fun N => concat (map (fun H => concat (map (fun W =>
    views_of N H W sched) (seqZ 0 nW))) (seqZ 0 nH))) (seqZ 0 nN)).

(** Spec side of the coverage property: channel tile [i] of [ic] input
    tiles and channel tile [j] of [wc] weight tiles share channels when the
    intervals [[i/ic, (i+1)/ic)] and [[j/wc, (j+1)/wc)] of the (uniformly
    split) channel depth meet; these are the pairs that must be visited. *)
Definition required_pairs (ic wc : Z) : list (Z * Z) :=
  filter (fun p => p.1 * wc < (p.2 + 1) * ic /\ p.2 * ic < (p.1 + 1) * wc)
    (list_prod (seqZ 0 ic) (seqZ 0 wc)).

(** The driver of the tiling helpers modelled from the spec. *)
Definition run_spec (kernel : KernelCall -> Tensor -> Tensor -> Tensor -> (V4 -> Z))
  : ConvOp -> M unit :=
  run kernel Tiling.computeBasicTileShapes Tiling.generateTiledTensor.

(** The step rule of the reconciliation loop as the spec states it: the
    visited pairs start at (iC, wC), are within the channel extents, advance
    both cursors when the extents are equal and only [wC] when the input
    extent is 1; after the last pair the loop condition fails. *)
Fixpoint walks (ic wc iC wC : Z) (sched : list (Z * Z)) : Prop :=
  match sched with
  | [] => ~ (iC < ic /\ wC < wc)
  | p :: rest =>
      p = (iC, wC) /\ iC < ic /\ wC < wc /\
      exists iC' wC',
        (ic = wc -> iC' = iC + 1 /\ wC' = wC + 1) /\
        (ic <> wc -> ic = 1 -> iC' = iC /\ wC' = wC + 1) /\
        walks ic wc iC' wC' rest
  end.

(** ** Concrete inputs *)

Definition ex_tile (d : V4) : Tensor := mkTensor (mkShape d Tiling.zero4 NHWC) (fun _ => 0).

Definition ex_tiled (grid : V4) (addrs : list Z) : TiledTensor :=
  mkTiled (mkShape grid Tiling.zero4 NHWC) addrs.

(** Seven tiles: input channel tiles at 1 and 2, weight channel tiles at 3,
    4, 6 and 7, the output tile at 5. *)
Definition ex_state : State :=
  mkState (list_to_map
    [(1, ex_tile (mkV4 1 8 8 2)); (2, ex_tile (mkV4 1 8 8 2));
     (3, ex_tile (mkV4 8 3 3 2)); (4, ex_tile (mkV4 8 3 3 2));
     (5, ex_tile (mkV4 1 8 8 8));
     (6, ex_tile (mkV4 8 3 3 2)); (7, ex_tile (mkV4 8 3 3 2))]) [].

Definition ex_op : ConvOp :=
  mkConvOp (ex_tile (mkV4 1 8 8 4)) (ex_tile (mkV4 8 3 3 4)) (ex_tile (mkV4 1 8 8 8))
    3 3 1 1.

(** Two input and two weight channel tiles, one output tile. *)
Definition ex_in2 : TiledTensor := ex_tiled (mkV4 1 1 1 2) [1; 2].
Definition ex_w2 : TiledTensor := ex_tiled (mkV4 1 1 1 2) [3; 4].
(** One input channel tile, four weight channel tiles. *)
Definition ex_in1 : TiledTensor := ex_tiled (mkV4 1 1 1 1) [1].
Definition ex_w4 : TiledTensor := ex_tiled (mkV4 1 1 1 4) [3; 4; 6; 7].
Definition ex_out : TiledTensor := ex_tiled (mkV4 1 1 1 1) [5].

(** A kernel that leaves the output tile as it is. *)
Definition keep_kernel : KernelCall -> Tensor -> Tensor -> Tensor -> (V4 -> Z) :=
  fun _ _ _ o => t_at o.

Definition views_after (r : State * Result unit) : list (V4 * V4 * V4 * bool) :=
  map call_view (kernel_calls (log r.1)).

Definition v0 : V4 := mkV4 0 0 0 0.

Definition ex_empty : State := mkState ∅ [].

(** The operator of [ex_op] with an NCHW input tensor. *)
Definition ex_op_nchw : ConvOp :=
  mkConvOp (mkTensor (mkShape (mkV4 1 4 8 8) Tiling.zero4 NCHW) (fun _ => 0))
    (ex_tile (mkV4 8 3 3 4)) (ex_tile (mkV4 1 8 8 8)) 3 3 1 1.

(** The operator of [ex_op] configured with a 5x5 kernel extent while its
    weights tensor holds 3x3 kernels. *)
Definition ex_op_mismatch : ConvOp :=
  mkConvOp (ex_tile (mkV4 1 8 8 4)) (ex_tile (mkV4 8 3 3 4)) (ex_tile (mkV4 1 8 8 8))
    5 5 1 1.

(** A tile generator returning a one-tile TiledTensor whose tile address
    was never allocated. *)
Definition ex_gen_dangling (t : Tensor) (ts : TensorShape) (hs : list Z)
    (h : gmap Z Tensor) : gmap Z Tensor * TiledTensor :=
  (h, mkTiled (mkShape (mkV4 1 1 1 1) Tiling.zero4 NHWC) [9]).

(** A 1x5x5x3 source whose elements record their own coordinates, cut
    into 1x2x2x2 tiles (5 and 3 are not multiples of 2) with a one-element
    halo on rows and columns. *)
Definition ex_src : Tensor :=
  mkTensor (mkShape (mkV4 1 5 5 3) Tiling.zero4 NHWC)
           (fun v => 100 * d1 v + 10 * d2 v + d3 v).

Definition ex_tshape : TensorShape := mkShape (mkV4 1 2 2 2) Tiling.zero4 NHWC.

Definition ex_halos : list Z := [0; 1; 1; 0].

(** The same operator shapes as [ex_op] over different tensor data. *)
Definition ex_op_data : ConvOp :=
  mkConvOp (mkTensor (mkShape (mkV4 1 8 8 4) Tiling.zero4 NHWC) (fun _ => 1))
    (mkTensor (mkShape (mkV4 8 3 3 4) Tiling.zero4 NHWC) (fun v => d0 v))
    (mkTensor (mkShape (mkV4 1 8 8 8) Tiling.zero4 NHWC) (fun _ => 7))
    3 3 1 1.

(** ** The reconciliation loop in closed form *)

(** The (iC, wC) pairs the channel loop of runNHWC visits, case by case
    on the channel extents. *)
Definition chan_sched_closed (ic wc : Z) : list (Z * Z) :=
  if (ic <=? 0) || (wc <=? 0) then []
  else if ic =? wc then map (fun j => (j, j)) (seqZ 0 ic)
  else if ic =? 1 then map (fun j => (0, j)) (seqZ 0 wc)
  else map (fun i => (i, 0)) (seqZ 0 ic).

(** The number of loop iterations (kernel calls) per (N, H, W). *)
Definition chan_calls (ic wc : Z) : Z :=
  if (ic <=? 0) || (wc <=? 0) then 0
  else if ic =? 1 then wc
  else ic.

(** The accumulate flags of those calls, in order. *)
Definition chan_flags (ic wc : Z) : list bool :=
  let n := Z.to_nat (chan_calls ic wc) in
  if ic =? wc then replicate n true
  else match n with O => [] | S m => true :: replicate m false end.

(** ** The operator's layout sets *)

(** [SmvConvolutionOp::getInputDataLayouts] and
    [SmvConvolutionOp::getOutputDataLayouts] (smv_convolution_op.h, lines
    28-33): each returns [DataLayoutSet(DataLayout::NHWC)], the set holding
    NHWC alone. *)
Definition getInputDataLayouts : list DataLayout := [NHWC].

Definition getOutputDataLayouts : list DataLayout := [NHWC].

(** * Proofs *)

(** ** The reconciliation loop *)

Lemma chan_loop_enough fuel ic wc iC wC :
  (Z.to_nat (ic - iC) + Z.to_nat (wc - wC) <= fuel)%nat ->
  is_Some (chan_loop fuel ic wc iC wC).
Proof.
  revert iC wC; induction fuel as [|fuel IH]; intros iC wC Hf; simpl.
  - destruct (iC <? ic) eqn:E1, (wC <? wc) eqn:E2; simpl; eauto.
    apply Z.ltb_lt in E1, E2; lia.
  - destruct ((iC <? ic) && (wC <? wc)) eqn:E; [|eauto].
    apply andb_true_iff in E as [E1 E2]; apply Z.ltb_lt in E1, E2.
    unfold chan_step; destruct (ic =? wc), (ic =? 1);
      match goal with
      | |- context [chan_loop fuel ic wc ?a ?b] =>
          destruct (IH a b ltac:(lia)) as [r ->]; simpl; eauto
      end.
Qed.

Lemma chan_sched_some ic wc : is_Some (chan_sched ic wc).
Proof. apply chan_loop_enough; lia. Qed.

Lemma seqZ_step i n : i < n -> seqZ i (n - i) = i :: seqZ (i + 1) (n - (i + 1)).
Proof.
  intros H. rewrite seqZ_cons by lia. f_equal; f_equal; lia.
Qed.

Lemma chan_loop_matched fuel k i :
  (Z.to_nat (k - i) <= fuel)%nat ->
  chan_loop fuel k k i i = Some (map (fun j => (j, j)) (seqZ i (k - i))).
Proof.
  revert i; induction fuel as [|fuel IH]; intros i Hf; simpl.
  - rewrite andb_diag. destruct (i <? k) eqn:E; [apply Z.ltb_lt in E; lia|].
    apply Z.ltb_ge in E. rewrite seqZ_nil by lia. done.
  - rewrite andb_diag. destruct (i <? k) eqn:E.
    + apply Z.ltb_lt in E. unfold chan_step. rewrite Z.eqb_refl.
      rewrite IH by lia. rewrite (seqZ_step i k E). done.
    + apply Z.ltb_ge in E. rewrite seqZ_nil by lia. done.
Qed.

Lemma chan_loop_single_input fuel k j :
  k <> 1 -> (Z.to_nat (k - j) <= fuel)%nat ->
  chan_loop fuel 1 k 0 j = Some (map (fun j => (0, j)) (seqZ j (k - j))).
Proof.
  intros Hk; revert j; induction fuel as [|fuel IH]; intros j Hf; simpl.
  - destruct (j <? k) eqn:E; [apply Z.ltb_lt in E; lia|].
    apply Z.ltb_ge in E. rewrite seqZ_nil by lia. done.
  - destruct (j <? k) eqn:E.
    + apply Z.ltb_lt in E. unfold chan_step.
      replace (1 =? k) with false by (symmetry; apply Z.eqb_neq; lia).
      simpl. rewrite IH by lia. rewrite (seqZ_step j k E). done.
    + apply Z.ltb_ge in E. rewrite seqZ_nil by lia. done.
Qed.

Lemma chan_loop_single_weight fuel ic wc i :
  ic <> wc -> ic <> 1 -> 0 < wc -> (Z.to_nat (ic - i) <= fuel)%nat ->
  chan_loop fuel ic wc i 0 = Some (map (fun i => (i, 0)) (seqZ i (ic - i))).
Proof.
  intros H1 H2 H3; revert i; induction fuel as [|fuel IH]; intros i Hf; simpl.
  - destruct (i <? ic) eqn:E; [apply Z.ltb_lt in E; lia|].
    apply Z.ltb_ge in E. rewrite seqZ_nil by lia. done.
  - replace (0 <? wc) with true by (symmetry; apply Z.ltb_lt; lia).
    rewrite andb_true_r. destruct (i <? ic) eqn:E.
    + apply Z.ltb_lt in E. unfold chan_step.
      replace (ic =? wc) with false by (symmetry; apply Z.eqb_neq; lia).
      replace (ic =? 1) with false by (symmetry; apply Z.eqb_neq; lia).
      simpl. rewrite IH by lia. rewrite (seqZ_step i ic E). done.
    + apply Z.ltb_ge in E. rewrite seqZ_nil by lia. done.
Qed.

Lemma chan_sched_matched k :
  chan_sched k k = Some (map (fun j => (j, j)) (seqZ 0 k)).
Proof.
  unfold chan_sched. rewrite chan_loop_matched by lia. by rewrite Z.sub_0_r.
Qed.

Lemma chan_sched_single_input k :
  k <> 1 -> chan_sched 1 k = Some (map (fun j => (0, j)) (seqZ 0 k)).
Proof.
  intros Hk. unfold chan_sched. rewrite chan_loop_single_input by lia.
  by rewrite Z.sub_0_r.
Qed.

Lemma chan_sched_single_weight ic wc :
  ic <> wc -> ic <> 1 -> 0 < wc ->
  chan_sched ic wc = Some (map (fun i => (i, 0)) (seqZ 0 ic)).
Proof.
  intros H1 H2 H3. unfold chan_sched. rewrite chan_loop_single_weight by lia.
  by rewrite Z.sub_0_r.
Qed.

(** ** Reasoning about the monad *)

(** [m] only appends kernel events to the log, whatever its outcome. *)
Definition logs_kernels {A} (m : M A) : Prop :=
  forall st st' r, m st = (st', r) -> exists ks, log st' = log st ++ map EvKernel ks.

(** On success, [m] appends kernel calls whose views are [v]. *)
Definition emits_views {A} (m : M A) (v : list (V4 * V4 * V4 * bool)) : Prop :=
  forall st st' a, m st = (st', Ok a) ->
    exists ks, log st' = log st ++ map EvKernel ks /\ map call_view ks = v.

(** [m] writes the heap only at the addresses in [outs]. *)
Definition frames {A} (outs : list Z) (m : M A) : Prop :=
  forall st st' r, m st = (st', r) -> forall a, a ∉ outs -> heap st' !! a = heap st !! a.

(** Any failure of [m] is an indexing failure. *)
Definition fails_index {A} (m : M A) : Prop :=
  forall st st' e, m st = (st', Err e) -> e = IndexFailure.

Ltac inv_bind H :=
  unfold mbind, M_bind in H;
  let E := fresh "E" in
  match type of H with
  | (match ?m ?st with _ => _ end) = _ =>
      destruct (m st) as [?s1 [?a1|?e1]] eqn:E
  end.

Lemma logs_kernels_bind {A B} (m : M A) (f : A -> M B) :
  logs_kernels m -> (forall a, logs_kernels (f a)) -> logs_kernels (m ≫= f).
Proof.
  intros Hm Hf st st' r H. inv_bind H.
  - destruct (Hm _ _ _ E) as [k1 H1]. destruct (Hf _ _ _ _ H) as [k2 H2].
    exists (k1 ++ k2). rewrite H2, H1, map_app. by rewrite app_assoc.
  - simplify_eq. destruct (Hm _ _ _ E) as [k1 H1]. eauto.
Qed.

Lemma emits_views_bind {A B} (m : M A) (f : A -> M B) v1 v2 :
  emits_views m v1 -> (forall a, emits_views (f a) v2) ->
  emits_views (m ≫= f) (v1 ++ v2).
Proof.
  intros Hm Hf st st' r H. inv_bind H; [|done].
  destruct (Hm _ _ _ E) as (k1 & H1 & V1). destruct (Hf _ _ _ _ H) as (k2 & H2 & V2).
  exists (k1 ++ k2). rewrite H2, H1, !map_app, V1, V2. by rewrite app_assoc.
Qed.

Lemma frames_bind {A B} outs (m : M A) (f : A -> M B) :
  frames outs m -> (forall a, frames outs (f a)) -> frames outs (m ≫= f).
Proof.
  intros Hm Hf st st' r H a Ha. inv_bind H.
  - rewrite (Hf _ _ _ _ H a Ha). by apply (Hm _ _ _ E).
  - simplify_eq. by apply (Hm _ _ _ E).
Qed.

Lemma fails_index_bind {A B} (m : M A) (f : A -> M B) :
  fails_index m -> (forall a, fails_index (f a)) -> fails_index (m ≫= f).
Proof.
  intros Hm Hf st st' e H. inv_bind H.
  - by apply (Hf _ _ _ _ H).
  - simplify_eq. by apply (Hm _ _ _ E).
Qed.

Lemma mret_props {A} (a : A) outs :
  logs_kernels (mret a : M A) /\ emits_views (mret a : M A) [] /\
  frames outs (mret a : M A) /\ fails_index (mret a : M A).
Proof.
  unfold logs_kernels, emits_views, frames, fails_index, mret, M_ret.
  split_and!; intros; simplify_eq; try done.
  - exists []. by rewrite app_nil_r.
  - exists []. by rewrite app_nil_r.
Qed.

Lemma iter_props {A} (l : list A) (f : A -> M unit) g outs :
  (forall x, x ∈ l -> logs_kernels (f x) /\ emits_views (f x) (g x) /\
                      frames outs (f x) /\ fails_index (f x)) ->
  logs_kernels (iter_ l f) /\ emits_views (iter_ l f) (concat (map g l)) /\
  frames outs (iter_ l f) /\ fails_index (iter_ l f).
Proof.
  induction l as [|x l IH]; intros Hf; simpl.
  - apply mret_props.
  - destruct (Hf x ltac:(set_solver)) as (P1 & P2 & P3 & P4).
    destruct IH as (Q1 & Q2 & Q3 & Q4); [intros; apply Hf; set_solver|].
    split_and!.
    + by apply logs_kernels_bind.
    + by apply emits_views_bind.
    + by apply frames_bind.
    + by apply fails_index_bind.
Qed.

Lemma conv_body_spec kernel op inputs weights outputs N H W iC wC st st' r :
  conv_body kernel op inputs weights outputs N H W iC wC st = (st', r) ->
  (r = Ok () /\ exists k outAddr t,
     outAddr ∈ tt_tiles outputs /\
     st' = mkState (<[outAddr := t]> (heap st)) (log st ++ [EvKernel k]) /\
     call_view k = (mkV4 N H 0 iC, mkV4 W 0 0 wC, mkV4 N H 0 W, iC =? wC))
  \/ (r = Err IndexFailure /\ st' = st).
Proof.
  unfold conv_body, index_of, tile_addr, load, of_option, emit, store,
    mbind, M_bind, mret, M_ret, fail.
  intros Hr. repeat case_match; simplify_eq; auto.
  left. split; [done|]. do 3 eexists. split; [|split; [reflexivity|reflexivity]].
  eapply list_elem_of_lookup_2; eauto.
Qed.

Lemma conv_body_props kernel op inputs weights outputs N H W (p : Z * Z) :
  let m := conv_body kernel op inputs weights outputs N H W p.1 p.2 in
  logs_kernels m /\
  emits_views m [(mkV4 N H 0 p.1, mkV4 W 0 0 p.2, mkV4 N H 0 W, p.1 =? p.2)] /\
  frames (tt_tiles outputs) m /\ fails_index m.
Proof.
  intros m. split_and!; intros st st' r Hm;
    destruct (conv_body_spec _ _ _ _ _ _ _ _ _ _ _ _ _ Hm)
      as [(Hr & k & o & t & Ho & Hst & Hk) | (Hr & Hst)]; subst st'; simplify_eq/=;
    first
      [ done
      | by exists [k]
      | exists []; by rewrite app_nil_r
      | exists [k]; simpl; by rewrite Hk
      | intros a Ha; rewrite lookup_insert_ne; [done|]; intros ->; done ].
Qed.

Lemma concat_map_singleton {A B} (f : A -> B) (l : list A) :
  concat (map (fun x => [f x]) l) = map f l.
Proof. induction l; simpl; congruence. Qed.

Lemma runNHWC_props kernel op inputs weights outputs sched :
  chan_sched (d3 (dims (tt_shape inputs))) (d3 (dims (tt_shape weights))) = Some sched ->
  let m := runNHWC kernel op inputs weights outputs in
  logs_kernels m /\
  emits_views m (nest_views (d0 (dims (tt_shape inputs))) (d1 (dims (tt_shape inputs)))
                            (d0 (dims (tt_shape weights))) sched) /\
  frames (tt_tiles outputs) m /\ fails_index m.
Proof.
  intros Hs m. unfold m, runNHWC, for_, nest_views. rewrite Hs.
  apply iter_props; intros N _.
  apply iter_props; intros H _.
  apply iter_props; intros W _.
  unfold views_of. rewrite <- (concat_map_singleton
    (fun p : Z * Z => (mkV4 N H 0 p.1, mkV4 W 0 0 p.2, mkV4 N H 0 W, p.1 =? p.2))).
  apply iter_props; intros p _. apply conv_body_props.
Qed.

Lemma chan_loop_walks fuel ic wc iC wC sched :
  chan_loop fuel ic wc iC wC = Some sched -> walks ic wc iC wC sched.
Proof.
  revert iC wC sched; induction fuel as [|fuel IH]; intros iC wC sched H; simpl in H.
  - destruct ((iC <? ic) && (wC <? wc)) eqn:E; simplify_eq/=.
    rewrite andb_false_iff, !Z.ltb_ge in E. lia.
  - destruct ((iC <? ic) && (wC <? wc)) eqn:E; simplify_eq/=.
    + apply andb_true_iff in E as [E1 E2]; apply Z.ltb_lt in E1, E2.
      destruct (chan_step ic wc iC wC) as [iC' wC'] eqn:Es.
      destruct (chan_loop fuel ic wc iC' wC') as [rest|] eqn:Er; simplify_eq/=.
      split_and!; try done. exists iC', wC'.
      unfold chan_step in Es. split_and!.
      * intros ->. rewrite Z.eqb_refl in Es. by simplify_eq.
      * intros Hne ->. apply Z.eqb_neq in Hne. rewrite Hne in Es. simpl in Es. by simplify_eq.
      * by apply IH.
    + rewrite andb_false_iff, !Z.ltb_ge in E. lia.
Qed.

(** C2: in runNHWC, for every (N, H, W) the loop visits the pairs of a
    schedule that starts at iC = wC = 0, advances both cursors when the
    input and weight channel extents are equal and only wC when the input
    extent is 1, and runs while both cursors are below their extents; the
    kernel is called for each pair on the input tile at (N, H, 0, iC), the
    weight tile at (W, 0, 0, wC) and the output tile at (N, H, 0, W). *)
Theorem runNHWC_channel_reconciliation kernel op inputs weights outputs st st' :
  runNHWC kernel op inputs weights outputs st = (st', Ok ()) ->
  let ic := d3 (dims (tt_shape inputs)) in
  let wc := d3 (dims (tt_shape weights)) in
  exists sched,
    chan_sched ic wc = Some sched /\ walks ic wc 0 0 sched /\
    exists ks, log st' = log st ++ map EvKernel ks /\
      map call_view ks =
        nest_views (d0 (dims (tt_shape inputs))) (d1 (dims (tt_shape inputs)))
                   (d0 (dims (tt_shape weights))) sched.
Proof.
  intros Hrun ic wc.
  destruct (chan_sched_some ic wc) as [sched Hs].
  exists sched. split_and!; [done| unfold chan_sched in Hs; by eapply chan_loop_walks |].
  destruct (runNHWC_props kernel op inputs weights outputs sched Hs) as (_ & Hv & _).
  by apply (Hv _ _ _ Hrun).
Qed.

Lemma runNHWC_channel_reconciliation_witness :
  let r := runNHWC keep_kernel ex_op ex_in2 ex_w2 ex_out ex_state in
  r = (r.1, Ok ()) /\
  exists sched,
    chan_sched 2 2 = Some sched /\ walks 2 2 0 0 sched /\
    exists ks, log r.1 = log ex_state ++ map EvKernel ks /\
      map call_view ks = nest_views 1 1 1 sched.
Proof.
  intros r.
  assert (Hr : r = (r.1, Ok ())) by (vm_compute; reflexivity).
  split; [exact Hr|].
  exact (runNHWC_channel_reconciliation keep_kernel ex_op ex_in2 ex_w2 ex_out
           ex_state r.1 Hr).
Defined.

(** C1 (defect): the flag runNHWC passes as the kernel's accumulate flag is
    [iC == wC].  With two input and two weight channel tiles both calls on
    the output tile get [true], so no reading of the flag makes the first
    call overwrite and the second accumulate; with matched channel extents
    every call gets [true]. *)
Theorem runNHWC_accumulate_flag_matched :
  views_after (runNHWC keep_kernel ex_op ex_in2 ex_w2 ex_out ex_state) =
    [(v0, v0, v0, true); (mkV4 0 0 0 1, mkV4 0 0 0 1, v0, true)] /\
  (forall accumulate_of : bool -> bool,
     map (fun v => accumulate_of v.2)
       (views_after (runNHWC keep_kernel ex_op ex_in2 ex_w2 ex_out ex_state))
     <> [false; true]) /\
  (forall k, (fun s => forallb (fun p => p.1 =? p.2) s) <$> chan_sched k k = Some true).
Proof.
  split_and!.
  - vm_compute. reflexivity.
  - intros f. vm_compute. destruct (f true); discriminate.
  - intros k. rewrite chan_sched_matched. simpl. f_equal.
    apply forallb_forall. intros p Hp. apply in_map_iff in Hp as (j & <- & _).
    apply Z.eqb_refl.
Qed.

Lemma in_seqZ m n x : In x (seqZ m n) <-> m <= x < m + n.
Proof. rewrite <- list_elem_of_In. apply elem_of_seqZ. Qed.

Lemma NoDup_map_inj {A B} (f : A -> B) (l : list A) :
  (forall x y, f x = f y -> x = y) -> NoDup l -> NoDup (map f l).
Proof.
  intros Hf Hl. induction Hl as [|x l Hx Hl IH]; simpl; constructor; auto.
  intros Hin. apply list_elem_of_In, in_map_iff in Hin as (y & Hy & Hin).
  apply Hf in Hy. subst. by apply Hx, list_elem_of_In.
Qed.

Lemma required_pairs_spec ic wc p :
  p ∈ required_pairs ic wc <->
  (0 <= p.1 < ic /\ 0 <= p.2 < wc /\
   p.1 * wc < (p.2 + 1) * ic /\ p.2 * ic < (p.1 + 1) * wc).
Proof.
  unfold required_pairs. rewrite list_elem_of_filter, list_elem_of_In.
  destruct p as [i j]. rewrite in_prod_iff, !in_seqZ. simpl. lia.
Qed.

(** C3: for input and weight channel-tile counts each 1 or k (k > 1) the
    loop terminates and visits each pair of channel tiles that share
    channels exactly once, and no other pair; with one input and four
    weight channel tiles runNHWC calls the kernel four times on the output
    tile, wC going 0, 1, 2, 3 while iC stays 0. *)
Theorem chan_sched_coverage (k ic wc : Z) :
  1 < k -> (ic = 1 \/ ic = k) -> (wc = 1 \/ wc = k) ->
  (exists sched, chan_sched ic wc = Some sched /\ NoDup sched /\
     forall p, p ∈ sched <-> p ∈ required_pairs ic wc) /\
  chan_sched 1 4 = Some [(0, 0); (0, 1); (0, 2); (0, 3)] /\
  views_after (runNHWC keep_kernel ex_op ex_in1 ex_w4 ex_out ex_state) =
    [(v0, v0, v0, true); (v0, mkV4 0 0 0 1, v0, false);
     (v0, mkV4 0 0 0 2, v0, false); (v0, mkV4 0 0 0 3, v0, false)].
Proof.
  intros Hk Hic Hwc. split_and!; [| vm_compute; reflexivity | vm_compute; reflexivity].
  destruct (decide (ic = wc)) as [<-|Hne].
  - exists (map (fun j => (j, j)) (seqZ 0 ic)). split_and!.
    + apply chan_sched_matched.
    + apply NoDup_map_inj; [congruence | apply NoDup_seqZ].
    + intros [i j]. rewrite required_pairs_spec, list_elem_of_In, in_map_iff.
      setoid_rewrite in_seqZ. simpl. split.
      * intros (x & Hx & Hr). simplify_eq. nia.
      * intros (? & ? & ? & ?). exists i. split; [f_equal; nia | lia].
  - destruct Hic as [-> | ->].
    + destruct Hwc as [-> | ->]; [done|].
      exists (map (fun j => (0, j)) (seqZ 0 k)). split_and!.
      * apply chan_sched_single_input; lia.
      * apply NoDup_map_inj; [congruence | apply NoDup_seqZ].
      * intros [i j]. rewrite required_pairs_spec, list_elem_of_In, in_map_iff.
        setoid_rewrite in_seqZ. simpl. split.
        -- intros (x & Hx & Hr). simplify_eq. lia.
        -- intros (? & ? & ? & ?). exists j. split; [f_equal; lia | lia].
    + destruct Hwc as [-> | ->]; [|done].
      exists (map (fun i => (i, 0)) (seqZ 0 k)). split_and!.
      * apply chan_sched_single_weight; lia.
      * apply NoDup_map_inj; [congruence | apply NoDup_seqZ].
      * intros [i j]. rewrite required_pairs_spec, list_elem_of_In, in_map_iff.
        setoid_rewrite in_seqZ. simpl. split.
        -- intros (x & Hx & Hr). simplify_eq. lia.
        -- intros (? & ? & ? & ?). exists i. split; [f_equal; lia | lia].
Qed.

Lemma chan_sched_coverage_witness :
  1 < 4 /\ (1 = 1 \/ 1 = 4) /\ (4 = 1 \/ 4 = 4) /\
  ((exists sched, chan_sched 1 4 = Some sched /\ NoDup sched /\
      forall p, p ∈ sched <-> p ∈ required_pairs 1 4) /\
   chan_sched 1 4 = Some [(0, 0); (0, 1); (0, 2); (0, 3)] /\
   views_after (runNHWC keep_kernel ex_op ex_in1 ex_w4 ex_out ex_state) =
     [(v0, v0, v0, true); (v0, mkV4 0 0 0 1, v0, false);
      (v0, mkV4 0 0 0 2, v0, false); (v0, mkV4 0 0 0 3, v0, false)]).
Proof.
  refine (conj _ (conj _ (conj _ _))); [lia | left; reflexivity | right; reflexivity |].
  apply (chan_sched_coverage 4 1 4); [lia | left; reflexivity | right; reflexivity].
Defined.

(** C10: when the input and weight channel extents differ and both exceed
    1, the loop still terminates, with inputChanTiles calls per (N, H, W):
    only iC advances and wC stays 0, so weight channel tiles 1 and above
    are never visited. *)
Theorem chan_sched_unequal (ic wc : Z) :
  1 < ic -> 1 < wc -> ic <> wc ->
  exists sched, chan_sched ic wc = Some sched /\
    sched = map (fun i => (i, 0)) (seqZ 0 ic) /\
    length sched = Z.to_nat ic /\ (forall p, p ∈ sched -> p.2 = 0).
Proof.
  intros H1 H2 H3. exists (map (fun i => (i, 0)) (seqZ 0 ic)). split_and!.
  - apply chan_sched_single_weight; lia.
  - done.
  - by rewrite length_map, length_seqZ.
  - intros p Hp. apply list_elem_of_In, in_map_iff in Hp as (i & <- & _). done.
Qed.

Lemma chan_sched_unequal_witness :
  1 < 3 /\ 1 < 2 /\ 3 <> 2 /\
  exists sched, chan_sched 3 2 = Some sched /\
    sched = map (fun i => (i, 0)) (seqZ 0 3) /\
    length sched = Z.to_nat 3 /\ (forall p, p ∈ sched -> p.2 = 0).
Proof.
  refine (conj _ (conj _ (conj _ _))); [lia | lia | lia |].
  apply (chan_sched_unequal 3 2); lia.
Defined.

Lemma runNHWC_logs_kernels kernel op inputs weights outputs :
  logs_kernels (runNHWC kernel op inputs weights outputs).
Proof.
  destruct (chan_sched_some (d3 (dims (tt_shape inputs))) (d3 (dims (tt_shape weights))))
    as [sched Hs].
  apply (runNHWC_props kernel op inputs weights outputs sched Hs).
Qed.

Lemma runNHWC_frames kernel op inputs weights outputs :
  frames (tt_tiles outputs) (runNHWC kernel op inputs weights outputs).
Proof.
  destruct (chan_sched_some (d3 (dims (tt_shape inputs))) (d3 (dims (tt_shape weights))))
    as [sched Hs].
  apply (runNHWC_props kernel op inputs weights outputs sched Hs).
Qed.

Lemma runNHWC_fails_index kernel op inputs weights outputs :
  fails_index (runNHWC kernel op inputs weights outputs).
Proof.
  destruct (chan_sched_some (d3 (dims (tt_shape inputs))) (d3 (dims (tt_shape weights))))
    as [sched Hs].
  apply (runNHWC_props kernel op inputs weights outputs sched Hs).
Qed.

(** ** run *)

Lemma run_unfold kernel cbts gen op st :
  layout_is_NHWC (op_input op) = true ->
  layout_is_NHWC (op_kernels op) = true ->
  layout_is_NHWC (op_output op) = true ->
  let cfg := cbts op in
  let halos := [0; Z.quot (weightRows op) 2; Z.quot (weightCols op) 2; 0] in
  let r1 := gen (op_input op) (tc_inputs cfg) halos (heap st) in
  let r2 := gen (op_kernels op) (tc_weights cfg) [0; 0; 0; 0] r1.1 in
  let r3 := gen (op_output op) (tc_outputs cfg) [0; 0; 0; 0] r2.1 in
  run kernel cbts gen op st =
  runNHWC kernel op r1.2 r2.2 r3.2
    (mkState r3.1 (log st ++
      [EvTileShapes cfg; EvGenerate (op_input op) (tc_inputs cfg) halos;
       EvGenerate (op_kernels op) (tc_weights cfg) [0; 0; 0; 0];
       EvGenerate (op_output op) (tc_outputs cfg) [0; 0; 0; 0]])).
Proof.
  intros H1 H2 H3 cfg halos r1 r2 r3.
  unfold run, assert, compute_tiles, generate, emit, mbind, M_bind, mret, M_ret.
  rewrite H1, H2, H3.
  unfold r3, r2, r1; clear r1 r2 r3.
  destruct (gen (op_input op) _ _ _) as [h1 t1].
  destruct (gen (op_kernels op) _ _ _) as [h2 t2].
  destruct (gen (op_output op) _ _ _) as [h3 t3]. simpl.
  by rewrite <- !app_assoc.
Qed.

(** C4: run passes to generateTiledTensor the halo
    [{0, weightRows / 2, weightCols / 2, 0}] for the input tensor and the
    all-zero halo for the weights and the output tensors; these are the
    only tiling requests it makes. *)
Theorem run_halos kernel cbts gen op st st' r :
  layout_is_NHWC (op_input op) = true ->
  layout_is_NHWC (op_kernels op) = true ->
  layout_is_NHWC (op_output op) = true ->
  run kernel cbts gen op st = (st', r) ->
  exists ks, log st' = log st ++
    [EvTileShapes (cbts op);
     EvGenerate (op_input op) (tc_inputs (cbts op))
       [0; Z.quot (weightRows op) 2; Z.quot (weightCols op) 2; 0];
     EvGenerate (op_kernels op) (tc_weights (cbts op)) [0; 0; 0; 0];
     EvGenerate (op_output op) (tc_outputs (cbts op)) [0; 0; 0; 0]] ++ map EvKernel ks.
Proof.
  intros H1 H2 H3 Hr. rewrite (run_unfold kernel cbts gen op st H1 H2 H3) in Hr.
  destruct (runNHWC_logs_kernels _ _ _ _ _ _ _ _ Hr) as [ks Hks].
  exists ks. rewrite Hks. simpl. by rewrite <- app_assoc.
Qed.

Lemma run_halos_witness :
  let r := run_spec keep_kernel ex_op ex_empty in
  exists ks, log r.1 = log ex_empty ++
    [EvTileShapes (Tiling.computeBasicTileShapes ex_op);
     EvGenerate (op_input ex_op) (tc_inputs (Tiling.computeBasicTileShapes ex_op))
       [0; Z.quot (weightRows ex_op) 2; Z.quot (weightCols ex_op) 2; 0];
     EvGenerate (op_kernels ex_op) (tc_weights (Tiling.computeBasicTileShapes ex_op))
       [0; 0; 0; 0];
     EvGenerate (op_output ex_op) (tc_outputs (Tiling.computeBasicTileShapes ex_op))
       [0; 0; 0; 0]] ++ map EvKernel ks.
Proof.
  intros r.
  exact (run_halos keep_kernel Tiling.computeBasicTileShapes Tiling.generateTiledTensor
           ex_op ex_empty r.1 r.2 eq_refl eq_refl eq_refl
           (surjective_pairing _)).
Defined.

(** C6: run asserts that the input, weights and output tensors are NHWC
    before anything else: on a layout mismatch it stops with an assertion
    failure, the heap and the log untouched (no tile shapes computed, no
    TiledTensor generated, no kernel called); with three NHWC tensors the
    assertions pass. *)
Theorem run_asserts_layout kernel cbts gen op st :
  (layout_is_NHWC (op_input op) && layout_is_NHWC (op_kernels op) &&
   layout_is_NHWC (op_output op) = false ->
   run kernel cbts gen op st = (st, Err AssertFailure)) /\
  (layout_is_NHWC (op_input op) && layout_is_NHWC (op_kernels op) &&
   layout_is_NHWC (op_output op) = true ->
   forall st' r, run kernel cbts gen op st = (st', r) -> r <> Err AssertFailure).
Proof.
  split.
  - intros Hl. unfold run, assert, mbind, M_bind, mret, M_ret, fail.
    destruct (layout_is_NHWC (op_input op)), (layout_is_NHWC (op_kernels op)),
      (layout_is_NHWC (op_output op)); done.
  - intros Hl st' r Hr ->. apply andb_true_iff in Hl as [Hl H3].
    apply andb_true_iff in Hl as [H1 H2].
    rewrite (run_unfold kernel cbts gen op st H1 H2 H3) in Hr.
    by pose proof (runNHWC_fails_index _ _ _ _ _ _ _ _ Hr).
Qed.

Lemma run_asserts_layout_witness :
  layout_is_NHWC (op_input ex_op_nchw) && layout_is_NHWC (op_kernels ex_op_nchw) &&
  layout_is_NHWC (op_output ex_op_nchw) = false /\
  run_spec keep_kernel ex_op_nchw ex_state = (ex_state, Err AssertFailure).
Proof.
  split; [reflexivity|].
  apply (proj1 (run_asserts_layout keep_kernel Tiling.computeBasicTileShapes
                  Tiling.generateTiledTensor ex_op_nchw ex_state)).
  reflexivity.
Defined.

(** C5 as stated: a weight tile whose spatial extent differs from the
    configured kernel extent is reported before the loop.  With 3x3 weight
    tiles and weightRows = weightCols = 5, run completes and calls the
    kernel on those tiles. *)
Lemma run_kernel_extent_mismatch_counterexample :
  let r := run_spec keep_kernel ex_op_mismatch ex_empty in
  weightRows ex_op_mismatch = 5 /\ weightCols ex_op_mismatch = 5 /\
  r.2 = Ok () /\ kernel_calls (log r.1) <> [] /\
  Forall (fun k => d1 (kc_weights_dims k) = 3 /\ d2 (kc_weights_dims k) = 3)
    (kernel_calls (log r.1)).
Proof.
  intros r. split_and!; [reflexivity | reflexivity | vm_compute; reflexivity
    | vm_compute; discriminate | vm_compute; repeat constructor].
Qed.

(** C5, as the code has it: before the loop run checks only that the three
    tensors are NHWC; neither run nor runNHWC compares a weight tile's
    spatial extent with weightRows/weightCols.  With NHWC tensors (and
    tiling helpers that return), the only way run fails is an indexing
    failure inside the tile loop. *)
Theorem run_no_kernel_extent_check kernel cbts gen op st st' e :
  layout_is_NHWC (op_input op) = true ->
  layout_is_NHWC (op_kernels op) = true ->
  layout_is_NHWC (op_output op) = true ->
  run kernel cbts gen op st = (st', Err e) -> e = IndexFailure.
Proof.
  intros H1 H2 H3 Hr. rewrite (run_unfold kernel cbts gen op st H1 H2 H3) in Hr.
  exact (runNHWC_fails_index _ _ _ _ _ _ _ _ Hr).
Qed.

(** The witness uses a tile generator whose tiles were never stored: the
    kernel call then fails to load them. *)
Lemma run_no_kernel_extent_check_witness :
  let r := run keep_kernel Tiling.computeBasicTileShapes ex_gen_dangling
             ex_op_mismatch ex_empty in
  r = (r.1, Err IndexFailure) /\ IndexFailure = IndexFailure.
Proof.
  intros r.
  assert (Hr : r = (r.1, Err IndexFailure)) by (vm_compute; reflexivity).
  split; [exact Hr|].
  exact (run_no_kernel_extent_check keep_kernel Tiling.computeBasicTileShapes
           ex_gen_dangling ex_op_mismatch ex_empty r.1 IndexFailure
           eq_refl eq_refl eq_refl Hr).
Defined.

(** C7: runNHWC writes the heap only at the addresses of the output
    TiledTensor's tiles, whatever its outcome; so when the output tiles are
    distinct from the input and weight tiles (as freshly generated tiles
    are), no input or weight tile is changed. *)
Theorem runNHWC_writes_only_outputs kernel op inputs weights outputs st st' r :
  runNHWC kernel op inputs weights outputs st = (st', r) ->
  (forall a, a ∉ tt_tiles outputs -> heap st' !! a = heap st !! a) /\
  (Forall (fun a => a ∉ tt_tiles outputs) (tt_tiles inputs ++ tt_tiles weights) ->
   forall a, a ∈ tt_tiles inputs ++ tt_tiles weights -> heap st' !! a = heap st !! a).
Proof.
  intros Hr. pose proof (runNHWC_frames kernel op inputs weights outputs _ _ _ Hr) as Hf.
  split; [exact Hf|].
  intros Hd a Ha. apply Hf. rewrite Forall_forall in Hd. by apply Hd.
Qed.

Lemma runNHWC_writes_only_outputs_witness :
  let r := runNHWC keep_kernel ex_op ex_in1 ex_w4 ex_out ex_state in
  Forall (fun a => a ∉ tt_tiles ex_out) (tt_tiles ex_in1 ++ tt_tiles ex_w4) /\
  (forall a, a ∉ tt_tiles ex_out -> heap r.1 !! a = heap ex_state !! a) /\
  (Forall (fun a => a ∉ tt_tiles ex_out) (tt_tiles ex_in1 ++ tt_tiles ex_w4) ->
   forall a, a ∈ tt_tiles ex_in1 ++ tt_tiles ex_w4 -> heap r.1 !! a = heap ex_state !! a).
Proof.
  intros r. split.
  - apply Forall_forall. intros a Ha Hin.
    apply list_elem_of_In in Ha, Hin. simpl in Ha, Hin. lia.
  - exact (runNHWC_writes_only_outputs keep_kernel ex_op ex_in1 ex_w4 ex_out ex_state
             r.1 r.2 (surjective_pairing _)).
Defined.

(** ** Tile generation (spec model) *)

Lemma axis_tile (E t h x : Z) :
  0 < t -> 0 <= h -> 0 <= x < E ->
  0 <= x / t < Tiling.num_tiles E t /\
  Tiling.halo_lo t h (x / t) <= x < Tiling.halo_hi E t h (x / t).
Proof.
  intros Ht Hh Hx. unfold Tiling.num_tiles, Tiling.halo_lo, Tiling.halo_hi.
  pose proof (Z.div_mod x t ltac:(lia)) as Hd.
  pose proof (Z.mod_pos_bound x t Ht) as Hm.
  assert (0 <= x / t) by (apply Z.div_pos; lia).
  assert (x / t + 1 <= (E + t - 1) / t) by (apply Z.div_le_lower_bound; lia).
  split; [lia|]. split; [lia|]. apply Z.min_glb_lt; lia.
Qed.

Lemma axis_core_unique (E t g x : Z) :
  0 < t -> 0 <= x < E ->
  (Tiling.core_lo t g <= x < Tiling.core_hi E t g <-> g = x / t).
Proof.
  intros Ht Hx. unfold Tiling.core_lo, Tiling.core_hi. split.
  - intros [H1 H2]. apply (Z.div_unique_pos x t g (x - g * t)).
    + split; [lia|]. pose proof (Z.le_min_r E ((g + 1) * t)). lia.
    + lia.
  - intros ->. pose proof (Z.div_mod x t ltac:(lia)) as Hd.
    pose proof (Z.mod_pos_bound x t Ht) as Hm.
    split; [lia|]. apply Z.min_glb_lt; lia.
Qed.

Lemma lookup_map_list {A B} (f : A -> B) (l : list A) (i : nat) :
  map f l !! i = f <$> l !! i.
Proof. revert i; induction l as [|x l IH]; intros [|i]; simpl; auto. Qed.

Lemma lookup_flat_map_uniform {A B} (f : A -> list B) (l : list A) (k i j : nat) (a : A) :
  (forall y, length (f y) = k) -> l !! i = Some a -> (j < k)%nat ->
  flat_map f l !! (i * k + j)%nat = f a !! j.
Proof.
  intros Hk. revert i; induction l as [|y l IH]; intros i Hi Hj; [done|].
  simpl. destruct i as [|i]; simpl in Hi; simplify_eq.
  - rewrite lookup_app_l; [done|]. rewrite Hk. lia.
  - rewrite lookup_app_r by (rewrite Hk; lia). rewrite Hk.
    replace (S i * k + j - k)%nat with (i * k + j)%nat by lia. by apply IH.
Qed.

Lemma length_flat_map_uniform {A B} (f : A -> list B) (l : list A) (k : nat) :
  (forall y, length (f y) = k) -> length (flat_map f l) = (length l * k)%nat.
Proof.
  intros Hk. induction l as [|y l IH]; simpl; [done|].
  rewrite length_app, IH, Hk. lia.
Qed.

Lemma lookup_seqZ0 (n g : Z) : 0 <= g < n -> seqZ 0 n !! Z.to_nat g = Some g.
Proof. intros H. rewrite lookup_seqZ_lt by lia. f_equal. lia. Qed.

Lemma grid_coords_lookup (n g : V4) :
  Tiling.v4_all (fun gi ni => 0 <= gi < ni) g n ->
  exists idx, tile_index n g = Some idx /\ 0 <= idx /\
              Tiling.grid_coords n !! Z.to_nat idx = Some g.
Proof.
  destruct n as [n0 n1 n2 n3], g as [g0 g1 g2 g3].
  unfold Tiling.v4_all; simpl. intros (H0 & H1 & H2 & H3).
  eexists. split.
  - unfold tile_index; simpl.
    repeat match goal with
           | |- context [?a <=? ?b] => replace (a <=? b) with true by (symmetry; apply Z.leb_le; lia)
           | |- context [?a <? ?b] => replace (a <? b) with true by (symmetry; apply Z.ltb_lt; lia)
           end. reflexivity.
  - split; [repeat (apply Z.add_nonneg_nonneg || apply Z.mul_nonneg_nonneg); lia|].
    unfold Tiling.grid_coords; simpl.
    set (K3 := Z.to_nat n3). set (K2 := (Z.to_nat n2 * K3)%nat).
    set (K1 := (Z.to_nat n1 * K2)%nat).
    replace (Z.to_nat (((g0 * n1 + g1) * n2 + g2) * n3 + g3))
      with (Z.to_nat g0 * K1 + (Z.to_nat g1 * K2 + (Z.to_nat g2 * K3 + Z.to_nat g3)))%nat
      by (unfold K1, K2, K3; apply Nat2Z.inj;
          rewrite !Nat2Z.inj_add, !Nat2Z.inj_mul, !Z2Nat.id by nia; nia).
    assert (HL3 : forall c, length (map (fun d => mkV4 g0 g1 c d) (seqZ 0 n3)) = K3).
    { intros c. by rewrite length_map, length_seqZ. }
    rewrite (lookup_flat_map_uniform _ _ K1 _ _ g0); [| | by apply lookup_seqZ0 | ].
    3:{ unfold K1, K2, K3. nia. }
    2:{ intros y. rewrite (length_flat_map_uniform _ _ K2), length_seqZ; [done|].
        intros z. rewrite (length_flat_map_uniform _ _ K3), length_seqZ; [done|].
        intros c. by rewrite length_map, length_seqZ. }
    rewrite (lookup_flat_map_uniform _ _ K2 _ _ g1); [| | by apply lookup_seqZ0 | ].
    3:{ unfold K2, K3. nia. }
    2:{ intros z. rewrite (length_flat_map_uniform _ _ K3), length_seqZ; [done|].
        intros c. by rewrite length_map, length_seqZ. }
    rewrite (lookup_flat_map_uniform _ _ K3 _ _ g2); [| | by apply lookup_seqZ0 | ].
    3:{ unfold K3. lia. }
    2:{ intros c. by rewrite length_map, length_seqZ. }
    rewrite lookup_map_list, lookup_seqZ0 by lia. done.
Qed.

Lemma alloc_all_lookup_lt base ts h k :
  k < base -> Tiling.alloc_all base ts h !! k = h !! k.
Proof.
  revert base h; induction ts as [|t ts IH]; intros base h Hk; simpl; [done|].
  rewrite IH by lia. apply lookup_insert_ne. lia.
Qed.

Lemma alloc_all_lookup base ts h (i : nat) :
  (i < length ts)%nat -> Tiling.alloc_all base ts h !! (base + Z.of_nat i) = ts !! i.
Proof.
  revert base h i; induction ts as [|t ts IH]; intros base h i Hi; simpl in *; [lia|].
  destruct i as [|i].
  - rewrite alloc_all_lookup_lt by lia. rewrite Z.add_0_r. apply lookup_insert_eq.
  - replace (base + Z.of_nat (S i)) with ((base + 1) + Z.of_nat i) by lia.
    apply IH. lia.
Qed.

(** C8: generateTiledTensor (as the spec describes it) loses nothing: for
    positive tile extents and non-negative halos, every element [x] of the
    source tensor, of any extent, is read back exactly from the tile whose
    core holds it, at [x] minus that tile's origin (the halo overlap
    subtracted); and [x] lies in the core of exactly one tile of the grid,
    so the cores cover the source with no gap and no overlap. *)
Theorem generateTiledTensor_reconstructs (src : Tensor) (tileShape : TensorShape)
    (halos : list Z) (h : gmap Z Tensor) (x : V4) :
  Tiling.v4_forall (fun t => 0 < t) (dims tileShape) ->
  Tiling.v4_forall (fun hl => 0 <= hl) (Tiling.v4_of_list halos) ->
  Tiling.v4_all (fun xi e => 0 <= xi < e) x (dims (t_shape src)) ->
  let res := Tiling.generateTiledTensor src tileShape halos h in
  Tiling.reconstruct res.1 res.2 (dims tileShape) (Tiling.v4_of_list halos) x
    = Some (t_at src x) /\
  (forall g, Tiling.v4_all (fun gi ni => 0 <= gi < ni) g (dims (tt_shape res.2)) ->
     Tiling.in_core (dims (t_shape src)) (dims tileShape) g x <->
     g = Tiling.v4map2 Z.div x (dims tileShape)).
Proof.
  intros Hts Hhs Hx res.
  set (E := dims (t_shape src)) in *. set (ts := dims tileShape) in *.
  set (hs := Tiling.v4_of_list halos) in *.
  set (g := Tiling.v4map2 Z.div x ts).
  set (grid := Tiling.tile_grid E ts).
  assert (Hax : forall (Ei ti hi xi : Z), 0 < ti -> 0 <= hi -> 0 <= xi < Ei ->
            0 <= xi / ti < Tiling.num_tiles Ei ti /\
            Tiling.halo_lo ti hi (xi / ti) <= xi < Tiling.halo_hi Ei ti hi (xi / ti))
    by (intros; by apply axis_tile).
  destruct Hts as (T0 & T1 & T2 & T3), Hhs as (K0 & K1 & K2 & K3),
    Hx as (X0 & X1 & X2 & X3).
  destruct (Hax _ _ _ _ T0 K0 X0) as [G0 L0], (Hax _ _ _ _ T1 K1 X1) as [G1 L1],
    (Hax _ _ _ _ T2 K2 X2) as [G2 L2], (Hax _ _ _ _ T3 K3 X3) as [G3 L3].
  split.
  - destruct (grid_coords_lookup grid g) as (idx & Hidx & Hidx0 & Hg);
      [unfold Tiling.v4_all; simpl; lia|].
    unfold Tiling.reconstruct, res, Tiling.generateTiledTensor; simpl.
    fold E ts hs g grid. rewrite Hidx; simpl.
    set (tiles := Tiling.gen_tiles src ts hs).
    assert (Ht : tiles !! Z.to_nat idx = Some (Tiling.make_tile src ts hs g)).
    { unfold tiles, Tiling.gen_tiles. fold E grid. by rewrite lookup_map_list, Hg. }
    assert (Hlen : (Z.to_nat idx < length tiles)%nat) by (eapply lookup_lt_Some; eauto).
    rewrite lookup_seqZ_lt by lia; simpl.
    rewrite alloc_all_lookup by done. rewrite Ht; simpl.
    rewrite bool_decide_true.
    + f_equal. destruct x. unfold Tiling.v4map2, Tiling.tile_origin, Tiling.v4map3.
      simpl. do 2 f_equal; lia.
    + unfold Tiling.v4_all, Tiling.tile_extent, Tiling.tile_origin, Tiling.v4map3; simpl.
      unfold g, E, hs, Tiling.v4map2, Tiling.v4_of_list in *; simpl in *. lia.
  - intros g' Hg'. unfold Tiling.in_core, g, Tiling.v4map2.
    destruct g' as [a0 a1 a2 a3]; simpl.
    rewrite (axis_core_unique (d0 E) (d0 ts) a0 (d0 x)) by lia.
    rewrite (axis_core_unique (d1 E) (d1 ts) a1 (d1 x)) by lia.
    rewrite (axis_core_unique (d2 E) (d2 ts) a2 (d2 x)) by lia.
    rewrite (axis_core_unique (d3 E) (d3 ts) a3 (d3 x)) by lia.
    split; [intros (-> & -> & -> & ->); done|].
    intros Heq. injection Heq. lia.
Qed.

Lemma generateTiledTensor_reconstructs_witness :
  Tiling.v4_forall (fun t => 0 < t) (dims ex_tshape) /\
  Tiling.v4_forall (fun hl => 0 <= hl) (Tiling.v4_of_list ex_halos) /\
  Tiling.v4_all (fun xi e => 0 <= xi < e) (mkV4 0 4 3 2) (dims (t_shape ex_src)) /\
  Tiling.reconstruct (Tiling.generateTiledTensor ex_src ex_tshape ex_halos ∅).1
    (Tiling.generateTiledTensor ex_src ex_tshape ex_halos ∅).2
    (dims ex_tshape) (Tiling.v4_of_list ex_halos) (mkV4 0 4 3 2) = Some 432.
Proof.
  assert (H1 : Tiling.v4_forall (fun t => 0 < t) (dims ex_tshape))
    by (unfold Tiling.v4_forall; simpl; lia).
  assert (H2 : Tiling.v4_forall (fun hl => 0 <= hl) (Tiling.v4_of_list ex_halos))
    by (unfold Tiling.v4_forall; simpl; lia).
  assert (H3 : Tiling.v4_all (fun xi e => 0 <= xi < e) (mkV4 0 4 3 2) (dims (t_shape ex_src)))
    by (unfold Tiling.v4_all; simpl; lia).
  refine (conj H1 (conj H2 (conj H3 _))).
  destruct (generateTiledTensor_reconstructs ex_src ex_tshape ex_halos ∅ (mkV4 0 4 3 2)
              H1 H2 H3) as [Hr _].
  rewrite Hr. reflexivity.
Defined.

(** ** Tile shapes *)

(** C9: computeBasicTileShapes is a function of the hardware constants and
    of the operator's shapes: two operators whose input, weight and output
    shapes agree (whatever their data) and whose strides agree get the same
    tile shapes under the same processing-element count and
    multiply-accumulate capacity. *)
Theorem computeBasicTileShapes_deterministic (numPEs1 numPEs2 maccs1 maccs2 : Z)
    (op1 op2 : ConvOp) :
  numPEs1 = numPEs2 -> maccs1 = maccs2 ->
  t_shape (op_input op1) = t_shape (op_input op2) ->
  t_shape (op_kernels op1) = t_shape (op_kernels op2) ->
  t_shape (op_output op1) = t_shape (op_output op2) ->
  rowStride op1 = rowStride op2 -> colStride op1 = colStride op2 ->
  Tiling.computeBasicTileShapes_with numPEs1 maccs1 op1 =
  Tiling.computeBasicTileShapes_with numPEs2 maccs2 op2.
Proof.
  intros -> -> Hi Hk Ho _ _.
  unfold Tiling.computeBasicTileShapes_with. by rewrite Hi, Hk, Ho.
Qed.

Lemma computeBasicTileShapes_deterministic_witness :
  Tiling.computeBasicTileShapes_with Tiling.kNumPEs Tiling.kNumMaccsPerPE ex_op =
  Tiling.computeBasicTileShapes_with Tiling.kNumPEs Tiling.kNumMaccsPerPE ex_op_data.
Proof.
  apply (computeBasicTileShapes_deterministic Tiling.kNumPEs Tiling.kNumPEs
           Tiling.kNumMaccsPerPE Tiling.kNumMaccsPerPE ex_op ex_op_data);
    reflexivity.
Defined.

(** ** The reconciliation loop, all extents *)

Lemma chan_sched_cases ic wc : chan_sched ic wc = Some (chan_sched_closed ic wc).
Proof.
  unfold chan_sched_closed.
  destruct ((ic <=? 0) || (wc <=? 0)) eqn:Hp.
  - apply orb_true_iff in Hp. unfold chan_sched.
    assert (Hf : (0 <? ic) && (0 <? wc) = false).
    { apply andb_false_iff. destruct Hp as [Hp|Hp]; apply Z.leb_le in Hp;
        [left|right]; apply Z.ltb_ge; lia. }
    destruct (Z.to_nat ic + Z.to_nat wc)%nat; cbn [chan_loop]; by rewrite Hf.
  - apply orb_false_iff in Hp as [Hp1 Hp2]. apply Z.leb_gt in Hp1, Hp2.
    destruct (ic =? wc) eqn:E1.
    { apply Z.eqb_eq in E1. subst. apply chan_sched_matched. }
    apply Z.eqb_neq in E1. destruct (ic =? 1) eqn:E2.
    { apply Z.eqb_eq in E2. subst. apply chan_sched_single_input. lia. }
    apply Z.eqb_neq in E2. apply chan_sched_single_weight; lia.
Qed.

Lemma map_const_in {A B} (f : A -> B) (b : B) (l : list A) :
  (forall x, In x l -> f x = b) -> map f l = replicate (length l) b.
Proof.
  induction l as [|x l IH]; intros Hf; simpl; [done|].
  rewrite (Hf x) by (left; done). f_equal. apply IH. intros y Hy. apply Hf. by right.
Qed.

Lemma chan_sched_closed_flags ic wc :
  map (fun p => p.1 =? p.2) (chan_sched_closed ic wc) = chan_flags ic wc.
Proof.
  unfold chan_flags, chan_sched_closed, chan_calls.
  destruct ((ic <=? 0) || (wc <=? 0)) eqn:Hp; [by destruct (ic =? wc)|].
  apply orb_false_iff in Hp as [Hp1 Hp2]. apply Z.leb_gt in Hp1, Hp2.
  destruct (ic =? wc) eqn:E1.
  { apply Z.eqb_eq in E1. subst. rewrite map_map.
    rewrite (map_const_in _ true) by (intros x _; apply Z.eqb_refl).
    rewrite length_seqZ. by destruct (wc =? 1). }
  destruct (ic =? 1) eqn:E2.
  - rewrite map_map, seqZ_cons by lia. cbn [map].
    replace (Z.to_nat wc) with (S (Z.to_nat (Z.pred wc))) by lia.
    f_equal. rewrite (map_const_in _ false).
    + by rewrite length_seqZ.
    + intros x Hx. apply in_seqZ in Hx. apply Z.eqb_neq. simpl. lia.
  - rewrite map_map, seqZ_cons by lia. cbn [map].
    replace (Z.to_nat ic) with (S (Z.to_nat (Z.pred ic))) by lia.
    f_equal. rewrite (map_const_in _ false).
    + by rewrite length_seqZ.
    + intros x Hx. apply in_seqZ in Hx. apply Z.eqb_neq. simpl. lia.
Qed.

Lemma chan_sched_closed_bounds ic wc p :
  In p (chan_sched_closed ic wc) -> 0 <= p.1 < ic /\ 0 <= p.2 < wc.
Proof.
  unfold chan_sched_closed.
  destruct ((ic <=? 0) || (wc <=? 0)) eqn:Hp; [done|].
  apply orb_false_iff in Hp as [Hp1 Hp2]. apply Z.leb_gt in Hp1, Hp2.
  destruct (ic =? wc) eqn:E1; [|destruct (ic =? 1) eqn:E2];
    intros Hin; apply in_map_iff in Hin as (j & <- & Hj); apply in_seqZ in Hj; simpl;
    repeat match goal with Hb : (_ =? _) = true |- _ => apply Z.eqb_eq in Hb end; lia.
Qed.

(** ** The loop nest *)

Lemma concat_map_const {A B} (f : A -> list B) (c : list B) (l : list A) :
  (forall x, f x = c) -> concat (map f l) = concat (replicate (length l) c).
Proof. intros Hf. induction l as [|x l IH]; simpl; [done|]. by rewrite Hf, IH. Qed.

Lemma concat_replicate_mul {A} (a b : nat) (c : list A) :
  concat (replicate a (concat (replicate b c))) = concat (replicate (a * b) c).
Proof.
  induction a as [|a IH]; simpl; [done|]. by rewrite IH, replicate_add, concat_app.
Qed.

Lemma length_concat_replicate {A} (n : nat) (c : list A) :
  length (concat (replicate n c)) = (n * length c)%nat.
Proof. induction n as [|n IH]; simpl; [done|]. rewrite length_app, IH. lia. Qed.

Lemma nest_views_flags nN nH nW sched :
  map (fun v => v.2) (nest_views nN nH nW sched) =
  concat (replicate (Z.to_nat nN * Z.to_nat nH * Z.to_nat nW)
            (map (fun p => p.1 =? p.2) sched)).
Proof.
  set (c := map (fun p : Z * Z => p.1 =? p.2) sched).
  unfold nest_views. rewrite concat_map, map_map.
  rewrite (concat_map_const _ (concat (replicate (Z.to_nat nH * Z.to_nat nW) c))).
  { by rewrite length_seqZ, concat_replicate_mul, Nat.mul_assoc. }
  intros N. rewrite concat_map, map_map.
  rewrite (concat_map_const _ (concat (replicate (Z.to_nat nW) c))).
  { by rewrite length_seqZ, concat_replicate_mul. }
  intros H. rewrite concat_map, map_map.
  rewrite (concat_map_const _ c).
  { by rewrite length_seqZ. }
  intros W. unfold views_of, c. by rewrite map_map.
Qed.

Lemma elem_of_nest_views v nN nH nW sched :
  In v (nest_views nN nH nW sched) ->
  exists N H W p, 0 <= N < nN /\ 0 <= H < nH /\ 0 <= W < nW /\ In p sched /\
    v = (mkV4 N H 0 p.1, mkV4 W 0 0 p.2, mkV4 N H 0 W, p.1 =? p.2).
Proof.
  unfold nest_views. intros Hv.
  apply in_concat in Hv as (l1 & Hl1 & Hv). apply in_map_iff in Hl1 as (N & <- & HN).
  apply in_concat in Hv as (l2 & Hl2 & Hv). apply in_map_iff in Hl2 as (H & <- & HH).
  apply in_concat in Hv as (l3 & Hl3 & Hv). apply in_map_iff in Hl3 as (W & <- & HW).
  unfold views_of in Hv. apply in_map_iff in Hv as (p & <- & Hp).
  apply in_seqZ in HN, HH, HW. exists N, H, W, p. split_and!; try done; lia.
Qed.

Lemma runNHWC_views kernel op inputs weights outputs st st' :
  runNHWC kernel op inputs weights outputs st = (st', Ok ()) ->
  exists ks, log st' = log st ++ map EvKernel ks /\
    map call_view ks =
      nest_views (d0 (dims (tt_shape inputs))) (d1 (dims (tt_shape inputs)))
        (d0 (dims (tt_shape weights)))
        (chan_sched_closed (d3 (dims (tt_shape inputs))) (d3 (dims (tt_shape weights)))).
Proof.
  intros Hr.
  destruct (runNHWC_props kernel op inputs weights outputs _ (chan_sched_cases _ _))
    as (_ & Hv & _).
  exact (Hv _ _ _ Hr).
Qed.


Lemma iter_noop {A} (l : list A) (f : A -> M unit) st :
  (forall x s, In x l -> f x s = (s, Ok ())) -> iter_ l f st = (st, Ok ()).
Proof.
  revert st; induction l as [|x l IH]; intros st Hf; simpl; [done|].
  unfold mbind, M_bind. rewrite Hf by (left; done). apply IH.
  intros y s Hy. apply Hf. by right.
Qed.

(** ** Extra properties of runNHWC *)

(** The channel loop terminates for all channel extents, and visits:
    nothing when an extent is 0 or negative; (j, j) for j < ic when the
    extents are equal; (0, j) for j < wc when ic = 1; otherwise (i, 0) for
    i < ic, whether wc is 1 or larger. *)
Theorem chan_sched_closed_form (ic wc : Z) :
  chan_sched ic wc = Some (chan_sched_closed ic wc).
Proof. apply chan_sched_cases. Qed.

(** On success runNHWC makes exactly (input N tiles) x (input H tiles) x
    (weight filter tiles) x [chan_calls ic wc] kernel calls. *)
Theorem runNHWC_call_count kernel op inputs weights outputs st st' :
  runNHWC kernel op inputs weights outputs st = (st', Ok ()) ->
  exists ks, log st' = log st ++ map EvKernel ks /\
    length ks =
      (Z.to_nat (d0 (dims (tt_shape inputs))) * Z.to_nat (d1 (dims (tt_shape inputs))) *
       Z.to_nat (d0 (dims (tt_shape weights))) *
       Z.to_nat (chan_calls (d3 (dims (tt_shape inputs))) (d3 (dims (tt_shape weights)))))%nat.
Proof.
  intros Hr. destruct (runNHWC_views _ _ _ _ _ _ _ Hr) as (ks & Hlog & Hv).
  exists ks. split; [done|].
  rewrite <- (length_map call_view ks), <- (length_map (fun v => v.2) (map call_view ks)).
  rewrite Hv, nest_views_flags, length_concat_replicate, length_map.
  unfold chan_sched_closed, chan_calls.
  destruct (_ || _) eqn:Hp; [simpl; lia|].
  apply orb_false_iff in Hp as [Hp1 Hp2]. apply Z.leb_gt in Hp1, Hp2.
  destruct (_ =? d3 (dims (tt_shape weights))) eqn:E1;
    [|destruct (_ =? 1) eqn:E2]; rewrite ?length_map, ?length_seqZ; try done.
  apply Z.eqb_eq in E1. rewrite E1. by destruct (_ =? 1).
Qed.

Lemma runNHWC_call_count_witness :
  let r := runNHWC keep_kernel ex_op ex_in1 ex_w4 ex_out ex_state in
  r = (r.1, Ok ()) /\
  exists ks, log r.1 = log ex_state ++ map EvKernel ks /\ length ks = 4%nat.
Proof.
  intros r.
  assert (Hr : r = (r.1, Ok ())) by (vm_compute; reflexivity).
  split; [exact Hr|].
  exact (runNHWC_call_count keep_kernel ex_op ex_in1 ex_w4 ex_out ex_state r.1 Hr).
Defined.

(** On success the accumulate flags of runNHWC's kernel calls repeat, for
    every (N, H, W), the pattern [chan_flags ic wc]: all true when the
    channel extents are equal, otherwise true on the first call of each
    output tile and false on the others. *)
Theorem runNHWC_flags kernel op inputs weights outputs st st' :
  runNHWC kernel op inputs weights outputs st = (st', Ok ()) ->
  exists ks, log st' = log st ++ map EvKernel ks /\
    map kc_accumulate ks =
      concat (replicate
        (Z.to_nat (d0 (dims (tt_shape inputs))) * Z.to_nat (d1 (dims (tt_shape inputs))) *
         Z.to_nat (d0 (dims (tt_shape weights))))
        (chan_flags (d3 (dims (tt_shape inputs))) (d3 (dims (tt_shape weights))))).
Proof.
  intros Hr. destruct (runNHWC_views _ _ _ _ _ _ _ Hr) as (ks & Hlog & Hv).
  exists ks. split; [done|].
  rewrite <- chan_sched_closed_flags, <- nest_views_flags, <- Hv, map_map.
  reflexivity.
Qed.

Lemma runNHWC_flags_witness :
  let r := runNHWC keep_kernel ex_op ex_in2 ex_w4 ex_out ex_state in
  r = (r.1, Ok ()) /\
  exists ks, log r.1 = log ex_state ++ map EvKernel ks /\
    map kc_accumulate ks = [true; false].
Proof.
  intros r.
  assert (Hr : r = (r.1, Ok ())) by (vm_compute; reflexivity).
  split; [exact Hr|].
  exact (runNHWC_flags keep_kernel ex_op ex_in2 ex_w4 ex_out ex_state r.1 Hr).
Defined.

(** On success every kernel call of runNHWC reads input tile (N, H, 0, iC)
    and weight tile (W, 0, 0, wC) and writes output tile (N, H, 0, W) with
    N, H below the input grid's first two extents, W below the weight
    grid's first extent, iC below the input channel extent and wC below the
    weight channel extent. *)
Theorem runNHWC_call_coords kernel op inputs weights outputs st st' :
  runNHWC kernel op inputs weights outputs st = (st', Ok ()) ->
  exists ks, log st' = log st ++ map EvKernel ks /\
    Forall (fun k => exists N H W iC wC,
      0 <= N < d0 (dims (tt_shape inputs)) /\ 0 <= H < d1 (dims (tt_shape inputs)) /\
      0 <= W < d0 (dims (tt_shape weights)) /\
      0 <= iC < d3 (dims (tt_shape inputs)) /\ 0 <= wC < d3 (dims (tt_shape weights)) /\
      kc_in_coord k = mkV4 N H 0 iC /\ kc_w_coord k = mkV4 W 0 0 wC /\
      kc_out_coord k = mkV4 N H 0 W) ks.
Proof.
  intros Hr. destruct (runNHWC_views _ _ _ _ _ _ _ Hr) as (ks & Hlog & Hv).
  exists ks. split; [done|].
  apply Forall_forall. intros k Hk. apply list_elem_of_In in Hk.
  assert (Hin : In (call_view k) (map call_view ks)) by (by apply in_map).
  rewrite Hv in Hin.
  destruct (elem_of_nest_views _ _ _ _ _ Hin) as (N & H & W & p & HN & HH & HW & Hp & Hk').
  destruct (chan_sched_closed_bounds _ _ _ Hp) as [Hp1 Hp2].
  unfold call_view in Hk'. simplify_eq.
  exists N, H, W, p.1, p.2. split_and!; done || lia.
Qed.

Lemma runNHWC_call_coords_witness :
  let r := runNHWC keep_kernel ex_op ex_in2 ex_w2 ex_out ex_state in
  r = (r.1, Ok ()) /\
  exists ks, log r.1 = log ex_state ++ map EvKernel ks /\
    Forall (fun k => exists N H W iC wC,
      0 <= N < 1 /\ 0 <= H < 1 /\ 0 <= W < 1 /\ 0 <= iC < 2 /\ 0 <= wC < 2 /\
      kc_in_coord k = mkV4 N H 0 iC /\ kc_w_coord k = mkV4 W 0 0 wC /\
      kc_out_coord k = mkV4 N H 0 W) ks.
Proof.
  intros r.
  assert (Hr : r = (r.1, Ok ())) by (vm_compute; reflexivity).
  split; [exact Hr|].
  exact (runNHWC_call_coords keep_kernel ex_op ex_in2 ex_w2 ex_out ex_state r.1 Hr).
Defined.

(** When the input grid has no N or H tile, the weight grid no filter tile,
    or either grid no channel tile, runNHWC makes no kernel call, reads no
    tile and leaves the heap and the log as they were. *)
Theorem runNHWC_empty kernel op inputs weights outputs st :
  d0 (dims (tt_shape inputs)) <= 0 \/ d1 (dims (tt_shape inputs)) <= 0 \/
  d0 (dims (tt_shape weights)) <= 0 \/
  d3 (dims (tt_shape inputs)) <= 0 \/ d3 (dims (tt_shape weights)) <= 0 ->
  runNHWC kernel op inputs weights outputs st = (st, Ok ()).
Proof.
  intros Hz. unfold runNHWC, for_.
  destruct Hz as [Hz|[Hz|[Hz|Hz]]].
  - by rewrite seqZ_nil by lia.
  - apply iter_noop. intros N s _. by rewrite seqZ_nil by lia.
  - apply iter_noop. intros N s _. apply iter_noop. intros H s' _.
    by rewrite seqZ_nil by lia.
  - apply iter_noop. intros N s _. apply iter_noop. intros H s' _.
    apply iter_noop. intros W s'' _. rewrite chan_sched_cases.
    unfold chan_sched_closed.
    replace ((d3 (dims (tt_shape inputs)) <=? 0) || (d3 (dims (tt_shape weights)) <=? 0))
      with true by (symmetry; apply orb_true_iff;
                    destruct Hz; [left|right]; apply Z.leb_le; lia).
    done.
Qed.

Lemma runNHWC_empty_witness :
  (d0 (dims (tt_shape (ex_tiled (mkV4 1 1 1 0) []))) <= 0 \/
  d1 (dims (tt_shape (ex_tiled (mkV4 1 1 1 0) []))) <= 0 \/
  d0 (dims (tt_shape ex_w2)) <= 0 \/
  d3 (dims (tt_shape (ex_tiled (mkV4 1 1 1 0) []))) <= 0 \/
  d3 (dims (tt_shape ex_w2)) <= 0) /\
  runNHWC keep_kernel ex_op (ex_tiled (mkV4 1 1 1 0) []) ex_w2 ex_out ex_state =
    (ex_state, Ok ()).
Proof.
  assert (Hz : d0 (dims (tt_shape (ex_tiled (mkV4 1 1 1 0) []))) <= 0 \/
    d1 (dims (tt_shape (ex_tiled (mkV4 1 1 1 0) []))) <= 0 \/
    d0 (dims (tt_shape ex_w2)) <= 0 \/
    d3 (dims (tt_shape (ex_tiled (mkV4 1 1 1 0) []))) <= 0 \/
    d3 (dims (tt_shape ex_w2)) <= 0) by (right; right; right; left; simpl; lia).
  split; [exact Hz|].
  exact (runNHWC_empty keep_kernel ex_op (ex_tiled (mkV4 1 1 1 0) []) ex_w2 ex_out
           ex_state Hz).
Defined.

(** ** Kernel-call arguments and tile shapes *)

(** The shape of every tensor of the heap. *)
Definition shapes (h : gmap Z Tensor) : gmap Z TensorShape := t_shape <$> h.

(** The heap address [tiled[tiled.startIndex()(c)]] of the tile at grid
    coordinate [c]. *)
Definition tile_at (tiled : TiledTensor) (c : V4) : option Z :=
  idx ← tile_index (dims (tt_shape tiled)) c; tt_tiles tiled !! Z.to_nat idx.

(** A kernel call as runNHWC makes it, for heap shapes [sh]: the three
    tiles are those of the tiled tensors at the call's coordinates, their
    dimensions and channel paddings are the ones they have in the heap, the
    strides are the operator's, the ofmap start is the filter tile
    coordinate W, the ifmap start is iC, and the accumulate flag is
    [iC == wC]. *)
Definition call_args (op : ConvOp) (inputs weights outputs : TiledTensor)
    (sh : gmap Z TensorShape) (k : KernelCall) : Prop :=
  tile_at inputs (kc_in_coord k) = Some (kc_inputs k) /\
  tile_at weights (kc_w_coord k) = Some (kc_weights k) /\
  tile_at outputs (kc_out_coord k) = Some (kc_results k) /\
  (exists s, sh !! kc_inputs k = Some s /\
     kc_inputs_dims k = dims s /\ kc_inputs_pad k = d3 (padding s)) /\
  (exists s, sh !! kc_weights k = Some s /\
     kc_weights_dims k = dims s /\ kc_weights_pad k = d3 (padding s)) /\
  (exists s, sh !! kc_results k = Some s /\
     kc_results_dims k = dims s /\ kc_results_pad k = d3 (padding s)) /\
  kc_row_stride k = rowStride op /\ kc_col_stride k = colStride op /\
  kc_ofmap_start k = d0 (kc_w_coord k) /\ kc_ifmap_start k = d3 (kc_in_coord k) /\
  kc_accumulate k = (d3 (kc_in_coord k) =? d3 (kc_w_coord k)).

(** [m] keeps the shape of every heap tensor (so allocates and frees
    nothing) and only appends kernel calls satisfying [P] for the initial
    shapes, whatever its outcome. *)
Definition shape_calls {A} (P : gmap Z TensorShape -> KernelCall -> Prop) (m : M A) : Prop :=
  forall st st' r, m st = (st', r) ->
    shapes (heap st') = shapes (heap st) /\
    exists ks, log st' = log st ++ map EvKernel ks /\ Forall (P (shapes (heap st))) ks.

Lemma shape_calls_bind {A B} P (m : M A) (f : A -> M B) :
  shape_calls P m -> (forall a, shape_calls P (f a)) -> shape_calls P (m ≫= f).
Proof.
  intros Hm Hf st st' r H. inv_bind H.
  - destruct (Hm _ _ _ E) as (S1 & k1 & L1 & F1).
    destruct (Hf _ _ _ _ H) as (S2 & k2 & L2 & F2).
    split; [congruence|]. exists (k1 ++ k2). split.
    + rewrite L2, L1, map_app. by rewrite app_assoc.
    + apply Forall_app. split; [done|]. by rewrite <- S1.
  - simplify_eq. exact (Hm _ _ _ E).
Qed.

Lemma shape_calls_iter {A} P (l : list A) (f : A -> M unit) :
  (forall x, shape_calls P (f x)) -> shape_calls P (iter_ l f).
Proof.
  intros Hf. induction l as [|x l IH]; simpl.
  - intros st st' r H. unfold mret, M_ret in H. simplify_eq.
    split; [done|]. exists []. by rewrite app_nil_r.
  - by apply shape_calls_bind.
Qed.

Lemma conv_body_shape_calls kernel op inputs weights outputs N H W iC wC :
  shape_calls (call_args op inputs weights outputs)
    (conv_body kernel op inputs weights outputs N H W iC wC).
Proof.
  intros st st' r Hr.
  unfold conv_body, index_of, tile_addr, load, of_option, emit, store,
    mbind, M_bind, mret, M_ret, fail in Hr.
  repeat case_match; simplify_eq;
    try (split; [done|]; exists []; by rewrite app_nil_r).
  simpl. split.
  - unfold shapes. rewrite fmap_insert. apply insert_id.
    rewrite lookup_fmap.
    repeat match goal with Hq : ?x = Some _ |- context [?x] => rewrite Hq end.
    done.
  - eexists [_]. split; [reflexivity|]. apply Forall_singleton.
    unfold call_args, tile_at, shapes; simpl.
    rewrite !lookup_fmap.
    repeat (match goal with Hq : ?x = Some _ |- context [?x] => rewrite Hq end; simpl).
    split_and!; try reflexivity; eexists; split_and!; reflexivity.
Qed.

(** Whatever its outcome, runNHWC keeps the shape of every heap tensor: it
    allocates and frees no tile and changes no tile's dimensions, padding
    or layout, only the data of output tiles. *)
Theorem runNHWC_keeps_shapes kernel op inputs weights outputs st st' r :
  runNHWC kernel op inputs weights outputs st = (st', r) ->
  shapes (heap st') = shapes (heap st).
Proof.
  intros Hr.
  assert (Hs : shape_calls (call_args op inputs weights outputs)
                 (runNHWC kernel op inputs weights outputs)).
  { unfold runNHWC, for_. rewrite chan_sched_cases.
    do 3 (apply shape_calls_iter; intros ?).
    apply shape_calls_iter; intros p. apply conv_body_shape_calls. }
  exact (proj1 (Hs _ _ _ Hr)).
Qed.

Lemma runNHWC_keeps_shapes_witness :
  let r := runNHWC keep_kernel ex_op ex_in2 ex_w2 ex_out ex_state in
  shapes (heap r.1) = shapes (heap ex_state).
Proof.
  intros r.
  exact (runNHWC_keeps_shapes keep_kernel ex_op ex_in2 ex_w2 ex_out ex_state r.1 r.2
           (surjective_pairing _)).
Defined.

(** Whatever its outcome, every kernel call runNHWC makes is passed the
    tiles of the three tiled tensors at its coordinates, with the
    dimensions and channel paddings those tiles have in the heap when
    runNHWC starts, the operator's row and column strides, W as ofmap
    start, iC as ifmap start and [iC == wC] as accumulate flag. *)
Theorem runNHWC_call_args kernel op inputs weights outputs st st' r :
  runNHWC kernel op inputs weights outputs st = (st', r) ->
  exists ks, log st' = log st ++ map EvKernel ks /\
    Forall (call_args op inputs weights outputs (shapes (heap st))) ks.
Proof.
  intros Hr.
  assert (Hs : shape_calls (call_args op inputs weights outputs)
                 (runNHWC kernel op inputs weights outputs)).
  { unfold runNHWC, for_. rewrite chan_sched_cases.
    do 3 (apply shape_calls_iter; intros ?).
    apply shape_calls_iter; intros p. apply conv_body_shape_calls. }
  exact (proj2 (Hs _ _ _ Hr)).
Qed.

Lemma runNHWC_call_args_witness :
  let r := runNHWC keep_kernel ex_op ex_in1 ex_w4 ex_out ex_state in
  exists ks, log r.1 = log ex_state ++ map EvKernel ks /\
    Forall (call_args ex_op ex_in1 ex_w4 ex_out (shapes (heap ex_state))) ks.
Proof.
  intros r.
  exact (runNHWC_call_args keep_kernel ex_op ex_in1 ex_w4 ex_out ex_state r.1 r.2
           (surjective_pairing _)).
Defined.

(** ** The layout sets and run *)

Lemma run_assert_fail kernel cbts gen op st :
  layout_is_NHWC (op_input op) && layout_is_NHWC (op_kernels op) &&
  layout_is_NHWC (op_output op) = false ->
  run kernel cbts gen op st = (st, Err AssertFailure).
Proof.
  intros Hl. unfold run, assert, mbind, M_bind, mret, M_ret, fail.
  destruct (layout_is_NHWC (op_input op)), (layout_is_NHWC (op_kernels op)),
    (layout_is_NHWC (op_output op)); done.
Qed.

(** run's assertions pass (run never stops with an assertion failure)
    exactly when the input and the kernels have a layout of
    getInputDataLayouts and the output a layout of getOutputDataLayouts. *)
Theorem run_layout_sets kernel cbts gen op st :
  (forall st' r, run kernel cbts gen op st = (st', r) -> r <> Err AssertFailure) <->
  layout (t_shape (op_input op)) ∈ getInputDataLayouts /\
  layout (t_shape (op_kernels op)) ∈ getInputDataLayouts /\
  layout (t_shape (op_output op)) ∈ getOutputDataLayouts.
Proof.
  unfold getInputDataLayouts, getOutputDataLayouts. rewrite !list_elem_of_singleton.
  split.
  - intros Hok.
    destruct (layout_is_NHWC (op_input op) && layout_is_NHWC (op_kernels op) &&
              layout_is_NHWC (op_output op)) eqn:Hl.
    + apply andb_true_iff in Hl as [Hl H3]. apply andb_true_iff in Hl as [H1 H2].
      unfold layout_is_NHWC in H1, H2, H3.
      apply bool_decide_eq_true_1 in H1, H2, H3. done.
    + exfalso. apply (Hok st (Err AssertFailure)); [|done].
      by apply run_assert_fail.
  - intros (H1 & H2 & H3) st' r Hr ->.
    assert (L : forall t, layout (t_shape t) = NHWC -> layout_is_NHWC t = true)
      by (intros t Ht; by apply bool_decide_eq_true_2).
    rewrite (run_unfold kernel cbts gen op st (L _ H1) (L _ H2) (L _ H3)) in Hr.
    by pose proof (runNHWC_fails_index _ _ _ _ _ _ _ _ Hr).
Qed.
